(** * The dashboard's DataStore: a watched, reference-counted resource cache

    A shallow embedding of the [DataStore] class (add / get / del / watch /
    garbageCollect / _publish, and the [WatchFunc] handle with its plain
    watcher, [arrayWatcher] and [unsubscribe]) together with the helper
    functions [watchNames] and [isResourceEqual].

    Modelling conventions.
    - The JavaScript objects [_d] and [_w] are plain objects used as maps.
      Their own properties are finite maps keyed by strings ([gmap string _]);
      a read [o[name]] that finds no own property falls through to
      [Object.prototype] ([prop_get]), whose properties are functions (and,
      for [__proto__], the prototype object itself): truthy values that are
      neither resources nor numbers.  Code that uses such a value as a
      resource raises a [TypeError], and arithmetic on it yields a string or
      [NaN] ([Counter]).
    - A call that raises leaves the store as it was when the error was
      raised; the functions return the state after the call and whether
      the call returned.
    - [Set]s are insertion-ordered lists without duplicates; [_cbs] holds
      closures, which are compared by reference, so every closure carries
      the address it was allocated at.
    - A [WatchFunc] handle is a mutable object shared by all its holders:
      handles live in a heap ([handles]) and are named by their address.
    - A user callback is opaque code.  It is named by a token and calling it
      is recorded as an [Event]; user callbacks are assumed not to call back
      into the store while a notification pass is running.
    - lodash's [isEqual] is not part of the repository: it is a parameter of
      the development. *)

From Stdlib Require Import ZArith Lia Ascii String.
From stdpp Require Import base option list strings gmap sorting.

(** ** JavaScript built-ins used by the store *)

Module Js.

(** [slash] is the separator of hierarchical names. *)
Definition slash : ascii := "/"%char.

(** [s.split('/')]: the segments of [s] between separators.  The result is
    never empty: the empty string has the single segment [""]. *)
Fixpoint split (s : string) : list string :=
  match s with
  | EmptyString => [""]
  | String c rest =>
      if Ascii.eqb c slash then "" :: split rest
      else match split rest with
           | [] => [String c ""]
           | seg :: segs => String c seg :: segs
           end
  end.

(** [parts.join('/')]. *)
Fixpoint join (parts : list string) : string :=
  match parts with
  | [] => ""
  | [p] => p
  | p :: ps => p +:+ "/" +:+ join ps
  end.

(** Truthiness of the result of [Array.prototype.find] on strings: the
    result is [undefined] when nothing is found, and a found empty string
    is falsy as well. *)
Definition truthy (o : option string) : bool :=
  match o with
  | Some s => negb (String.eqb s "")
  | None => false
  end.

(** [new Set(arr)] and [Set.prototype.add]: insertion order, no duplicates. *)
Definition set_add {A} `{EqDecision A} (x : A) (s : list A) : list A :=
  if decide (x ∈ s) then s else s ++ [x].

Definition set_of {A} `{EqDecision A} (arr : list A) : list A :=
  foldl (fun s x => set_add x s) [] arr.

(** [Set.prototype.has]. *)
Definition has {A} `{EqDecision A} (s : list A) (x : A) : bool :=
  bool_decide (x ∈ s).

End Js.

(** ** [watchNames] *)

(** The callback of [map] in [watchNames], with the captured variable [prev]
    threaded through. *)
Fixpoint watchNames_map (prev : string) (parts : list string) : list string :=
  match parts with
  | [] => []
  | part :: rest =>
      let name := if negb (String.eqb prev "") then prev +:+ "/" +:+ part else part in
      name :: watchNames_map name rest
  end.

Definition watchNames (resourceName : string) : list string :=
  watchNames_map "" (Js.split resourceName).

(** ** Hierarchical names *)

(** The specification's notion: [p] is an ancestor prefix of [N] when it is
    [N] itself or [N] truncated at a separator. *)
Definition ancestor_prefix (p N : string) : Prop :=
  p = N ∨ ∃ rest, N = p +:+ "/" +:+ rest.

(** Names whose first segment is not empty: neither the empty name nor a
    name that begins with the separator. *)
Definition rooted (N : string) : bool :=
  match N with
  | EmptyString => false
  | String c _ => negb (Ascii.eqb c Js.slash)
  end.

(** The number of separators in a name. *)
Fixpoint separators (N : string) : nat :=
  match N with
  | EmptyString => 0
  | String c rest =>
      (if Ascii.eqb c Js.slash then 1 else 0) + separators rest
  end.

(** ** Objects used as maps *)

(** The property names of [Object.prototype]. *)
Definition object_prototype : list string :=
  ["constructor"; "__defineGetter__"; "__defineSetter__"; "hasOwnProperty";
   "__lookupGetter__"; "__lookupSetter__"; "isPrototypeOf";
   "propertyIsEnumerable"; "toString"; "valueOf"; "__proto__";
   "toLocaleString"].

Definition inherited (name : string) : bool :=
  bool_decide (name ∈ object_prototype).

(** What a read [o[name]] returns when it is not [undefined]: the object's
    own property, or the property of that name of [Object.prototype]. *)
Inductive JsValue (A : Type) :=
| Own (a : A)
| Proto (name : string).

Arguments Own {A} a.
Arguments Proto {A} name.

(** [o[name]]; [None] is [undefined]. *)
Definition prop_get {A} (o : gmap string A) (name : string)
    : option (JsValue A) :=
  match o !! name with
  | Some a => Some (Own a)
  | None => if inherited name then Some (Proto name) else None
  end.

(** [o.hasOwnProperty(name)].  The method itself is read from [o]: when [o]
    has an own property called [hasOwnProperty] that property is called,
    and it is no function; [None] is the [TypeError]. *)
Definition hasOwnProperty {A} (o : gmap string A) (name : string)
    : option bool :=
  match o !! "hasOwnProperty" with
  | Some _ => None
  | None => Some (bool_decide (is_Some (o !! name)))
  end.

(** The values found in [_w]: a number, [NaN], or a string that is no
    numeral (the source text of an inherited function followed by ones). *)
Inductive Counter :=
| Num (z : Z)
| NaN
| Junk.

(** [(v || 0) + 1]: a string or a function is truthy and [+] appends to its
    text; [NaN], [0] and [undefined] are falsy. *)
Definition or0_add1 (v : option (JsValue Counter)) : Counter :=
  match v with
  | Some (Own (Num z)) => Num (z + 1)
  | Some (Own NaN) => Num 1
  | Some (Own Junk) => Junk
  | Some (Proto _) => Junk
  | None => Num 1
  end.

(** [(v || 0) - 1]: [-] converts a string or a function to [NaN]. *)
Definition or0_sub1 (v : option (JsValue Counter)) : Counter :=
  match v with
  | Some (Own (Num z)) => Num (z - 1)
  | Some (Own NaN) => Num (-1)
  | Some (Own Junk) => NaN
  | Some (Proto _) => NaN
  | None => Num (-1)
  end.

(** [v === 0] *)
Definition strictly_zero (v : option (JsValue Counter)) : bool :=
  match v with
  | Some (Own (Num z)) => Z.eqb z 0
  | _ => false
  end.

(** [wn[n] = c] for a number or a string [c]: an own property is written,
    except that writing [__proto__] on an object without such an own
    property calls the setter of [Object.prototype], which ignores
    primitive values. *)
Definition assign_counter (wn : gmap string Counter) (n : string)
    (c : Counter) : gmap string Counter :=
  if String.eqb n "__proto__" && negb (bool_decide (is_Some (wn !! n)))
  then wn
  else <[n := c]> wn.

(** [this._w[n] = (this._w[n] || 0) + 1] *)
Definition incr (wn : gmap string Counter) (n : string) : gmap string Counter :=
  assign_counter wn n (or0_add1 (prop_get wn n)).

(** [this._w[n] = (this._w[n] || 0) - 1; if (this._w[n] === 0) delete this._w[n]] *)
Definition decr (wn : gmap string Counter) (n : string) : gmap string Counter :=
  let wn1 := assign_counter wn n (or0_sub1 (prop_get wn n)) in
  if strictly_zero (prop_get wn1 n) then delete n wn1 else wn1.

(** [Array.prototype.find] with a callback that may raise; the outer [None]
    is the [TypeError]. *)
Fixpoint find_raising (p : string -> option bool) (l : list string)
    : option (option string) :=
  match l with
  | [] => Some None
  | x :: rest =>
      match p x with
      | None => None
      | Some true => Some (Some x)
      | Some false => find_raising p rest
      end
  end.

(** The names the store treats like any other: those [Object.prototype]
    does not define. *)
Definition ordinary (name : string) : Prop := inherited name = false.

(** ** The data model *)

Section DataStore.

Context {Obj : Type}.

(** lodash's deep equality on the snapshots returned by [toObject]. *)
Variable isEqual : Obj -> Obj -> bool.

(** [interface Resource]: a name and a snapshot. *)
Record Resource := mkResource { getName : string; toObject : Obj }.

Definition isResourceEqual (a b : Resource) : bool :=
  isEqual (toObject a) (toObject b).

(** The two closures called [filteredCb] in [watch].  [PlainCb] is the one
    built by calling the handle, [ArrayCb] the one built by [arrayWatcher];
    the fields are the variables each closure captures ([names], [namesArr],
    and the user's [cb], named by a token). *)
Inductive Closure :=
| PlainCb (names : list string) (cb : nat)
| ArrayCb (names : list string) (namesArr : list string) (cb : nat).

Definition closure_names (c : Closure) : list string :=
  match c with
  | PlainCb names _ => names
  | ArrayCb names _ _ => names
  end.

(** A call of a user callback: [cb(name, data)] or [cb(arr, name, data)].
    [fn] is the address of the [filteredCb] closure that made the call.
    The array holds what [get] returned, which need not be resources. *)
Inductive Event :=
| Call (fn cb : nat) (name : string) (data : option Resource)
| CallArr (fn cb : nat) (arr : list (JsValue Resource)) (name : string)
    (data : option Resource).

Definition event_fn (e : Event) : nat :=
  match e with
  | Call fn _ _ _ => fn
  | CallArr fn _ _ _ _ => fn
  end.

(** The private fields of [class DataStore]: the own properties of [_d] and
    of [_w], and the set [_cbs]. *)
Record DataStore := mkDataStore {
  _d : gmap string Resource;
  _cbs : list (nat * Closure);
  _w : gmap string Counter
}.

(** The state captured by one [WatchFunc] handle: the argument list of
    [watch], the [Set] built from it and the local [Set] of closures
    registered through the handle. *)
Record WatchFunc := mkWatchFunc {
  namesArr : list string;
  names : list string;
  cbs : list nat
}.

(** The store, the heap of handles and the next free closure address. *)
Record World := mkWorld {
  store : DataStore;
  handles : list WatchFunc;
  fresh : nat
}.

(** [new DataStore()] *)
Definition constructor : DataStore :=
  {| _d := ∅; _cbs := []; _w := ∅ |}.

Definition init : World :=
  {| store := constructor; handles := []; fresh := 0 |}.

Definition with_store (w : World) (s : DataStore) : World :=
  {| store := s; handles := handles w; fresh := fresh w |}.

(** ** Operations *)

(** [get(name)]: [this._d[name]]. *)
Definition get (s : DataStore) (name : string) : option (JsValue Resource) :=
  prop_get (_d s) name.

(** The [reduce] of [arrayWatcher]: what [get] returns for the names of
    [namesArr], in that order, the [undefined] results left out. *)
Definition array_view (s : DataStore) (namesArr : list string)
    : list (JsValue Resource) :=
  foldl (fun arr name =>
           match get s name with
           | Some _data => arr ++ [_data]
           | None => arr
           end) [] namesArr.

(** Calling a [filteredCb] closure with [(name, data)]. *)
Definition call (s : DataStore) (f : nat * Closure) (name : string)
    (data : option Resource) : list Event :=
  match f.2 with
  | PlainCb names cb =>
      let matchNames := watchNames name in
      if Js.truthy (List.find (fun n => Js.has names n) matchNames)
      then [Call f.1 cb name data]
      else []
  | ArrayCb names namesArr cb =>
      if Js.has names name
      then [CallArr f.1 cb (array_view s namesArr) name data]
      else []
  end.

Definition _publish (s : DataStore) (name : string) (data : option Resource)
    : list Event :=
  flat_map (fun f => call s f name data) (_cbs s).

(** [watch(...namesArr)]: a new handle, returned by address. *)
Definition watch (w : World) (namesArr : list string) : World * nat :=
  ({| store := store w;
      handles := handles w ++
        [{| namesArr := namesArr; names := Js.set_of namesArr; cbs := [] |}];
      fresh := fresh w |},
   length (handles w)).

(** The state of [items.forEach] in [add]: the store, the local array
    [names], the calls made so far, and whether a [TypeError] was raised
    (which ends the loop). *)
Record AddLoop := mkAddLoop {
  loop_store : DataStore;
  loop_names : list string;
  loop_events : list Event;
  loop_raised : bool
}.

(** The body of [items.forEach] in [add].  When [this._d[name]] is an
    inherited property it is truthy, and [isResourceEqual] raises because
    it has no [toObject]. *)
Definition add_item (st : AddLoop) (item : Resource) : AddLoop :=
  if loop_raised st then st
  else
    let s := loop_store st in
    let name := getName item in
    let names := loop_names st ++ [name] in
    let stored :=
      let s' := {| _d := <[name := item]> (_d s); _cbs := _cbs s; _w := _w s |} in
      {| loop_store := s'; loop_names := names;
         loop_events := loop_events st ++ _publish s' name (Some item);
         loop_raised := false |} in
    match prop_get (_d s) name with
    | Some (Proto _) =>
        {| loop_store := s; loop_names := names;
           loop_events := loop_events st; loop_raised := true |}
    | Some (Own cur) =>
        if isResourceEqual item cur
        then {| loop_store := s; loop_names := names;
                loop_events := loop_events st; loop_raised := false |}
        else stored
    | None => stored
    end.

Definition add_loop (s : DataStore) (items : list Resource) : AddLoop :=
  foldl add_item
        {| loop_store := s; loop_names := []; loop_events := [];
           loop_raised := false |} items.

(** [add(...items)]: the world after the call, the handle it returns
    ([None] when it raises) and the calls it makes. *)
Definition add (w : World) (items : list Resource)
    : World * option nat * list Event :=
  let st := add_loop (store w) items in
  if loop_raised st
  then (with_store w (loop_store st), None, loop_events st)
  else
    let '(w', h) := watch (with_store w (loop_store st)) (loop_names st) in
    (w', Some h, loop_events st).

Definition del (s : DataStore) (name : string) : DataStore * list Event :=
  let s' := {| _d := delete name (_d s); _cbs := _cbs s; _w := _w s |} in
  (s', _publish s' name None).

(** [watchFunc(cb)]: calling the handle at address [h] with a plain
    callback.  The new closure [filteredCb] is allocated at the next free
    address. *)
Definition watchFunc (w : World) (h : nat) (cb : nat) : World :=
  match handles w !! h with
  | None => w
  | Some hd =>
      let filteredCb := (fresh w, PlainCb (names hd) cb) in
      {| store :=
           {| _d := _d (store w);
              _cbs := _cbs (store w) ++ [filteredCb];
              _w := foldl incr (_w (store w)) (names hd) |};
         handles :=
           <[h := {| namesArr := namesArr hd; names := names hd;
                     cbs := cbs hd ++ [fresh w] |}]> (handles w);
         fresh := S (fresh w) |}
  end.

(** [watchFunc.arrayWatcher(cb)] *)
Definition arrayWatcher (w : World) (h : nat) (cb : nat) : World :=
  match handles w !! h with
  | None => w
  | Some hd =>
      let filteredCb := (fresh w, ArrayCb (names hd) (namesArr hd) cb) in
      {| store :=
           {| _d := _d (store w);
              _cbs := _cbs (store w) ++ [filteredCb];
              _w := foldl incr (_w (store w)) (names hd) |};
         handles :=
           <[h := {| namesArr := namesArr hd; names := names hd;
                     cbs := cbs hd ++ [fresh w] |}]> (handles w);
         fresh := S (fresh w) |}
  end.

(** The body of [cbs.forEach] in [unsubscribe], for the closure at [fn]. *)
Definition unsubscribe_cb (names : list string) (st : DataStore * list nat)
    (fn : nat) : DataStore * list nat :=
  ({| _d := _d st.1;
      _cbs := filter (fun f => f.1 ≠ fn) (_cbs st.1);
      _w := foldl decr (_w st.1) names |},
   filter (fun g => g ≠ fn) st.2).

(** [watchFunc.unsubscribe()] *)
Definition unsubscribe (w : World) (h : nat) : World :=
  match handles w !! h with
  | None => w
  | Some hd =>
      let st := foldl (unsubscribe_cb (names hd)) (store w, cbs hd) (cbs hd) in
      {| store := st.1;
         handles := <[h := {| namesArr := namesArr hd; names := names hd;
                              cbs := st.2 |}]> (handles w);
         fresh := fresh w |}
  end.

(** The test of [garbageCollect]: [watchNames(k).find(...)] is truthy;
    [None] when [watchedNames.hasOwnProperty] raises. *)
Definition gc_keeps (watchedNames : gmap string Counter) (k : string)
    : option bool :=
  Js.truthy <$> find_raising (hasOwnProperty watchedNames) (watchNames k).

(** One round of the [for ... in] loop of [garbageCollect]: the entries and
    whether a [TypeError] was raised (which ends the loop). *)
Definition gc_visit (watchedNames : gmap string Counter)
    (st : gmap string Resource * bool) (k : string)
    : gmap string Resource * bool :=
  if st.2 then st
  else
    match hasOwnProperty st.1 k with
    | None => (st.1, true)
    | Some false => (st.1, false)
    | Some true =>
        match gc_keeps watchedNames k with
        | None => (st.1, true)
        | Some true => (st.1, false)
        | Some false => (delete k st.1, false)
        end
    end.

(** [garbageCollect()]: the store after the call, and whether it raised. *)
Definition garbageCollect_call (s : DataStore) : DataStore * bool :=
  let watchedNames := _w s in
  let st := foldl (gc_visit watchedNames) (_d s, false)
                  (map_to_list (_d s)).*1 in
  ({| _d := st.1; _cbs := _cbs s; _w := _w s |}, st.2).

Definition garbageCollect (s : DataStore) : DataStore :=
  (garbageCollect_call s).1.

Definition garbageCollect_raises (s : DataStore) : bool :=
  (garbageCollect_call s).2.

(** ** Sequences of calls made by a client of the store *)

Inductive Op :=
| OAdd (items : list Resource)
| ODel (name : string)
| OWatch (namesArr : list string)
| OWatchFunc (h cb : nat)
| OArrayWatcher (h cb : nat)
| OUnsubscribe (h : nat)
| OGarbageCollect.

(** One call; a client that catches a [TypeError] goes on with the store
    as the failed call left it. *)
Definition step (w : World) (o : Op) : World * list Event :=
  match o with
  | OAdd items => let '(w', _, evs) := add w items in (w', evs)
  | ODel name => let '(s, evs) := del (store w) name in (with_store w s, evs)
  | OWatch namesArr => ((watch w namesArr).1, [])
  | OWatchFunc h cb => (watchFunc w h cb, [])
  | OArrayWatcher h cb => (arrayWatcher w h cb, [])
  | OUnsubscribe h => (unsubscribe w h, [])
  | OGarbageCollect => (with_store w (garbageCollect (store w)), [])
  end.

(** Running a sequence of calls; the calls of user callbacks accumulate. *)
Fixpoint run (w : World) (ops : list Op) : World * list Event :=
  match ops with
  | [] => (w, [])
  | o :: rest =>
      let '(w1, evs1) := step w o in
      let '(w2, evs2) := run w1 rest in
      (w2, evs1 ++ evs2)
  end.

(** ** Notions used to state the properties *)

(** The test a [filteredCb] closure makes before it calls the user's
    callback. *)
Definition fires (c : Closure) (name : string) : bool :=
  match c with
  | PlainCb names _ =>
      Js.truthy (List.find (fun n => Js.has names n) (watchNames name))
  | ArrayCb names _ _ => Js.has names name
  end.

(** The matching rule of the specification: a plain watcher matches a name
    when it watches one of its ancestor prefixes, an array watcher when the
    name is in its list. *)
Definition matches (c : Closure) (name : string) : Prop :=
  match c with
  | PlainCb names _ => ∃ p, ancestor_prefix p name ∧ p ∈ names
  | ArrayCb names _ _ => name ∈ names
  end.

(** The one call a closure can make. *)
Definition the_call (s : DataStore) (f : nat * Closure) (name : string)
    (data : option Resource) : Event :=
  match f.2 with
  | PlainCb _ cb => Call f.1 cb name data
  | ArrayCb _ namesArr cb => CallArr f.1 cb (array_view s namesArr) name data
  end.

Definition event_name (e : Event) : string :=
  match e with
  | Call _ _ name _ => name
  | CallArr _ _ _ name _ => name
  end.

Definition event_data (e : Event) : option Resource :=
  match e with
  | Call _ _ _ data => data
  | CallArr _ _ _ _ data => data
  end.

(** The events of [evs] that are calls made by the closure at address [fn]. *)
Definition calls_of (fn : nat) (evs : list Event) : list Event :=
  filter (fun e => event_fn e = fn) evs.

(** The number of registered closures whose watch set contains [n]. *)
Definition refcount (fs : list (nat * Closure)) (n : string) : Z :=
  Z.of_nat (length (filter (fun f => n ∈ closure_names f.2) fs)).

(** For every ordinary name, [_w] holds the number of registered closures
    watching it, and holds no zero. *)
Definition counts_ok (s : DataStore) : Prop :=
  ∀ n, ordinary n →
       _w s !! n =
       if decide (refcount (_cbs s) n = 0%Z) then None
       else Some (Num (refcount (_cbs s) n)).

(** The store after [this._d[name] = item] in [add]. *)
Definition stored (s : DataStore) (item : Resource) : DataStore :=
  {| _d := <[getName item := item]> (_d s); _cbs := _cbs s; _w := _w s |}.

(** The number a counter holds; [0] when there is none. *)
Definition count_of (wn : gmap string Counter) (n : string) : Z :=
  match wn !! n with
  | Some (Num z) => z
  | _ => 0%Z
  end.

(** The test of [garbageCollect] when [hasOwnProperty] is the inherited
    method. *)
Definition gc_own_test (watchedNames : gmap string Counter) (k : string)
    : bool :=
  Js.truthy (List.find (fun name => bool_decide (is_Some (watchedNames !! name)))
                       (watchNames k)).

(** [garbageCollect] cannot call the inherited [hasOwnProperty]: [_d] or
    [_w] has an own property of that name. *)
Definition gc_blocked (s : DataStore) : bool :=
  bool_decide (is_Some (_d s !! "hasOwnProperty")) ||
  bool_decide (is_Some (_w s !! "hasOwnProperty")).

(** What the two registrations have in common: they differ in the closure
    they build from the handle. *)
Definition register (w : World) (h : nat) (mk : WatchFunc -> Closure) : World :=
  match handles w !! h with
  | None => w
  | Some hd =>
      {| store :=
           {| _d := _d (store w);
              _cbs := _cbs (store w) ++ [(fresh w, mk hd)];
              _w := foldl incr (_w (store w)) (names hd) |};
         handles :=
           <[h := {| namesArr := namesArr hd; names := names hd;
                     cbs := cbs hd ++ [fresh w] |}]> (handles w);
         fresh := S (fresh w) |}
  end.

(** The invariant of the store and of the handles created on it. *)
Record Inv (w : World) : Prop := mkInv {
  inv_counts : counts_ok (store w);
  inv_addr_nodup : NoDup (_cbs (store w)).*1;
  inv_addr_fresh : ∀ f, f ∈ _cbs (store w) → f.1 < fresh w;
  inv_array_names : ∀ fn names namesArr cb,
    (fn, ArrayCb names namesArr cb) ∈ _cbs (store w) →
    names = Js.set_of namesArr;
  inv_handle_names : ∀ h hd,
    handles w !! h = Some hd → names hd = Js.set_of (namesArr hd);
  inv_handle_nodup : ∀ h hd, handles w !! h = Some hd → NoDup (cbs hd);
  inv_handle_cbs : ∀ h hd fn,
    handles w !! h = Some hd → fn ∈ cbs hd →
    ∃ c, (fn, c) ∈ _cbs (store w) ∧ closure_names c = names hd;
  inv_handle_disj : ∀ h1 h2 hd1 hd2 fn,
    h1 ≠ h2 → handles w !! h1 = Some hd1 → handles w !! h2 = Some hd2 →
    fn ∈ cbs hd1 → fn ∉ cbs hd2
}.

(** No entry is stored under a name of [Object.prototype]. *)
Definition entries_ordinary (s : DataStore) : Prop :=
  ∀ k, is_Some (_d s !! k) → ordinary k.

(** Every entry is stored under the name it reports. *)
Definition keyed (s : DataStore) : Prop :=
  ∀ k r, _d s !! k = Some r → getName r = k.

(** Every registered closure is in the set of some handle. *)
Definition owned (w : World) : Prop :=
  ∀ f, f ∈ _cbs (store w) →
       ∃ h hd, handles w !! h = Some hd ∧ f.1 ∈ cbs hd.

(** The calls that only manage subscriptions. *)
Definition subscription_op (o : Op) : bool :=
  match o with
  | OWatch _ | OWatchFunc _ _ | OArrayWatcher _ _ | OUnsubscribe _ => true
  | OAdd _ | ODel _ | OGarbageCollect => false
  end.


(** The worlds a client can produce from a new store. *)
Definition reachable (w : World) : Prop :=
  ∃ ops, (run init ops).1 = w.

End DataStore.

Arguments Resource : clear implicits.
Arguments Closure : clear implicits.
Arguments Event : clear implicits.
Arguments DataStore : clear implicits.
Arguments World : clear implicits.
Arguments Op : clear implicits.
Arguments AddLoop : clear implicits.

(** ** Concrete resources for the scenarios *)

(** A resource whose snapshot is an integer, compared with [Z.eqb]. *)
Definition res (name : string) (v : Z) : Resource Z := mkResource name v.

(** A resource whose snapshot is an object at some address holding an
    integer; deep equality compares what the objects hold. *)
Definition boxed (name : string) (addr : nat) (v : Z) : Resource (nat * Z) :=
  mkResource name (addr, v).

Definition same_contents (a b : nat * Z) : bool := Z.eqb a.2 b.2.

(** One plain watcher on ["n"], nothing stored. *)
Definition world_watching_n : World Z :=
  (run Z.eqb init [OWatch ["n"]; OWatchFunc 0 7]).1.

(** A resource stored under ["n"] and one plain watcher on ["n"]. *)
Definition world_boxed_n : World (nat * Z) :=
  (run same_contents init
     [OAdd [boxed "n" 1 5]; OWatch ["n"]; OWatchFunc 1 7]).1.

(** A plain watcher on ["a"] through one handle, a plain and an array
    watcher on ["a"; "b"] through another, and a resource under ["a/c"]. *)
Definition world_two_handles : World Z :=
  (run Z.eqb init
     [OWatch ["a"]; OWatchFunc 0 7;
      OWatch ["a"; "b"]; OWatchFunc 1 8; OArrayWatcher 1 9;
      OAdd [res "a/c" 3]]).1.

(** The second handle of [world_two_handles]. *)
Definition handle_a_b : WatchFunc :=
  {| namesArr := ["a"; "b"]; names := ["a"; "b"]; cbs := [1; 2] |}.

(** A resource under the empty name and one plain watcher on that name. *)
Definition world_empty_name : World Z :=
  (run Z.eqb init [OAdd [res "" 1]; OWatch [""]; OWatchFunc 1 7]).1.

(** A resource under ["/a"] and one plain watcher on that name. *)
Definition world_leading_slash : World Z :=
  (run Z.eqb init [OAdd [res "/a" 1]; OWatch ["/a"]; OWatchFunc 1 7]).1.

(** The handle returned by the [add] of [world_two_handles]. *)
Definition handle_a_c : WatchFunc :=
  {| namesArr := ["a/c"]; names := ["a/c"]; cbs := [] |}.

(** The handle of [world_watching_n]. *)
Definition handle_n : WatchFunc :=
  {| namesArr := ["n"]; names := ["n"]; cbs := [0] |}.

(** A handle for ["constructor"] with one plain callback. *)
Definition world_constructor : World Z :=
  (run Z.eqb init [OWatch ["constructor"]; OWatchFunc 0 7]).1.

(** The handle of [world_constructor]. *)
Definition handle_constructor : WatchFunc :=
  {| namesArr := ["constructor"]; names := ["constructor"]; cbs := [0] |}.

(** A handle for ["toString"] with one array callback. *)
Definition world_toString : World Z :=
  (run Z.eqb init [OWatch ["toString"]; OArrayWatcher 0 7]).1.

(** The handle of [world_toString]. *)
Definition handle_toString : WatchFunc :=
  {| namesArr := ["toString"]; names := ["toString"]; cbs := [0] |}.

(** A resource under ["n"] and a plain watcher of ["hasOwnProperty"]. *)
Definition world_hasOwnProperty : World Z :=
  (run Z.eqb init
     [OAdd [res "n" 1]; OWatch ["hasOwnProperty"]; OWatchFunc 1 7]).1.

(** The second handle of [world_hasOwnProperty]. *)
Definition handle_hasOwnProperty : WatchFunc :=
  {| namesArr := ["hasOwnProperty"]; names := ["hasOwnProperty"]; cbs := [0] |}.
(** * Properties *)

(** ** Hierarchical names *)

Example watchNames_release :
  watchNames "apps/123/releases/456"
  = ["apps"; "apps/123"; "apps/123/releases"; "apps/123/releases/456"].
Proof. reflexivity. Qed.

Example watchNames_empty : watchNames "" = [""].
Proof. reflexivity. Qed.

Example watchNames_leading_slash : watchNames "/a" = [""; "a"].
Proof. reflexivity. Qed.

Lemma append_String (c : ascii) (a b : string) :
  String c a +:+ b = String c (a +:+ b).
Proof. reflexivity. Qed.

Lemma append_assoc (a b c : string) : (a +:+ b) +:+ c = a +:+ (b +:+ c).
Proof.
  induction a as [|x a IH]; [reflexivity |].
  by rewrite !append_String, IH.
Qed.

Lemma append_eq_empty (a b : string) : a +:+ b = "" → a = "".
Proof. by destruct a. Qed.

Lemma split_not_nil (s : string) : Js.split s ≠ [].
Proof.
  induction s as [|c s IH]; simpl; [done |].
  destruct (Ascii.eqb c Js.slash); [done |].
  by destruct (Js.split s).
Qed.

Lemma join_cons_cons (p q : string) (l : list string) :
  Js.join (p :: q :: l) = p +:+ "/" +:+ Js.join (q :: l).
Proof. done. Qed.

Lemma join_String (c : ascii) (seg : string) (segs : list string) :
  Js.join (String c seg :: segs) = String c (Js.join (seg :: segs)).
Proof. by destruct segs. Qed.

Lemma join_split (s : string) : Js.join (Js.split s) = s.
Proof.
  induction s as [|c s IH]; [done |].
  simpl. destruct (Ascii.eqb_spec c Js.slash) as [-> | Hc].
  - pose proof (split_not_nil s) as Hne.
    destruct (Js.split s) as [|q l]; [done |].
    by rewrite join_cons_cons, IH.
  - pose proof (split_not_nil s) as Hne.
    destruct (Js.split s) as [|q l]; [done |].
    by rewrite join_String, IH.
Qed.

Lemma split_app_slash (p rest : string) :
  Js.split (p +:+ "/" +:+ rest) = Js.split p ++ Js.split rest.
Proof.
  induction p as [|c p IH]; [reflexivity |].
  rewrite append_String. simpl. rewrite IH.
  destruct (Ascii.eqb c Js.slash); [done |].
  pose proof (split_not_nil p) as Hne.
  by destruct (Js.split p).
Qed.

Lemma join_app (l1 l2 : list string) :
  l1 ≠ [] → l2 ≠ [] →
  Js.join (l1 ++ l2) = Js.join l1 +:+ "/" +:+ Js.join l2.
Proof.
  intros H1 H2. induction l1 as [|p l1 IH]; [done |].
  destruct l1 as [|q l1].
  - destruct l2; [done |]. done.
  - change ((p :: q :: l1) ++ l2) with (p :: q :: (l1 ++ l2)).
    rewrite !join_cons_cons.
    change (q :: (l1 ++ l2)) with ((q :: l1) ++ l2).
    rewrite IH by done. by rewrite !append_assoc.
Qed.

(** The ancestor prefixes of [N] are the joins of the non-empty prefixes of
    its list of segments. *)
Lemma ancestor_prefix_segments (x N : string) :
  ancestor_prefix x N ↔
  ∃ l1 l2, l1 ≠ [] ∧ Js.split N = l1 ++ l2 ∧ x = Js.join l1.
Proof.
  split.
  - intros [-> | [rest ->]].
    + exists (Js.split N), []. rewrite app_nil_r, join_split.
      split; [apply split_not_nil | done].
    + exists (Js.split x), (Js.split rest).
      rewrite split_app_slash, join_split.
      split; [apply split_not_nil | done].
  - intros (l1 & l2 & Hne & Hsplit & ->).
    rewrite <- (join_split N), Hsplit.
    destruct l2 as [|q l2].
    + left. by rewrite app_nil_r.
    + right. exists (Js.join (q :: l2)). by apply join_app.
Qed.

Lemma watchNames_map_elem (prev : string) (parts : list string) (x : string) :
  prev ≠ "" →
  x ∈ watchNames_map prev parts ↔
  ∃ l1 l2, l1 ≠ [] ∧ parts = l1 ++ l2 ∧ x = prev +:+ "/" +:+ Js.join l1.
Proof.
  revert prev. induction parts as [|part rest IH]; intros prev Hprev.
  - simpl. split.
    + by intros ?%elem_of_nil.
    + intros (l1 & l2 & Hne & Happ & _). by destruct l1.
  - simpl. destruct (String.eqb_spec prev "") as [|_]; [done |]. simpl.
    rewrite elem_of_cons, IH by (by intros ?%append_eq_empty).
    split.
    + intros [-> | (l1 & l2 & Hne & -> & ->)].
      * by exists [part], rest.
      * exists (part :: l1), l2. split; [done |]. split; [done |].
        destruct l1 as [|q l1]; [done |].
        by rewrite join_cons_cons, !append_assoc.
    + intros (l1 & l2 & Hne & Happ & ->).
      destruct l1 as [|p l1]; [done |].
      rewrite <- app_comm_cons in Happ. injection Happ as <- ->.
      destruct l1 as [|q l1]; [by left | right].
      exists (q :: l1), l2. split; [done |]. split; [done |].
      by rewrite join_cons_cons, !append_assoc.
Qed.

Lemma rooted_split (N : string) :
  rooted N = true → ∃ p0 ps, Js.split N = p0 :: ps ∧ p0 ≠ "".
Proof.
  destruct N as [|c N]; [done |]. simpl.
  destruct (Ascii.eqb c Js.slash); [done |]. intros _.
  pose proof (split_not_nil N) as Hne.
  destruct (Js.split N) as [|q l]; [done |]. by exists (String c q), l.
Qed.

(** On rooted names [watchNames] lists exactly the ancestor prefixes. *)
Lemma watchNames_ancestor_prefix (N x : string) :
  rooted N = true → x ∈ watchNames N ↔ ancestor_prefix x N.
Proof.
  intros (p0 & ps & Hsplit & Hp0)%rooted_split.
  rewrite ancestor_prefix_segments. unfold watchNames. rewrite Hsplit. simpl.
  rewrite elem_of_cons, watchNames_map_elem by done. split.
  - intros [-> | (l1 & l2 & Hne & -> & ->)].
    + by exists [p0], ps.
    + exists (p0 :: l1), l2. split; [done |]. split; [done |].
      by destruct l1.
  - intros (l1 & l2 & Hne & Happ & ->).
    destruct l1 as [|p l1]; [done |].
    rewrite <- app_comm_cons in Happ. injection Happ as <- ->.
    destruct l1 as [|q l1]; [by left | right].
    by exists (q :: l1), l2.
Qed.

Lemma watchNames_rooted_nonempty (N x : string) :
  rooted N = true → x ∈ watchNames N → x ≠ "".
Proof.
  intros HN Hx ->. apply watchNames_ancestor_prefix in Hx; [|done].
  destruct Hx as [<- | [rest ->]]; done.
Qed.

(** [find] followed by the truthiness test, on a list without the empty
    string, is an existence test. *)
Lemma truthy_find (p : string → bool) (l : list string) :
  (∀ x, x ∈ l → x ≠ "") →
  Js.truthy (List.find p l) = true ↔ ∃ x, x ∈ l ∧ p x = true.
Proof.
  intros Hl. induction l as [|y l IH]; simpl.
  - split; [done |]. by intros (x & ?%elem_of_nil & _).
  - destruct (p y) eqn:Hy.
    + simpl. split.
      * intros _. exists y. split; [left | done].
      * intros _. apply negb_true_iff, String.eqb_neq, Hl. left.
    + rewrite IH by (intros x Hx; apply Hl; by right). split.
      * intros (x & Hx & Hpx). exists x. split; [by right | done].
      * intros (x & [-> | Hx]%elem_of_cons & Hpx); [congruence |]. eauto.
Qed.

(** ** Sets and counters *)

Lemma set_add_elem {A} `{EqDecision A} (x y : A) (s : list A) :
  y ∈ Js.set_add x s ↔ y = x ∨ y ∈ s.
Proof.
  unfold Js.set_add. destruct (decide (x ∈ s)) as [Hin | Hout].
  - split; [by right | by intros [-> | ?]].
  - rewrite elem_of_app, list_elem_of_singleton. tauto.
Qed.

Lemma set_add_NoDup {A} `{EqDecision A} (x : A) (s : list A) :
  NoDup s → NoDup (Js.set_add x s).
Proof.
  intros Hs. unfold Js.set_add. destruct (decide (x ∈ s)) as [Hin | Hout]; [done |].
  apply NoDup_app. split; [done |]. split; [| apply NoDup_singleton].
  intros y Hy ->%list_elem_of_singleton. done.
Qed.

Lemma foldl_set_add {A} `{EqDecision A} (arr acc : list A) :
  NoDup acc →
  NoDup (foldl (fun s x => Js.set_add x s) acc arr) ∧
  ∀ y, y ∈ foldl (fun s x => Js.set_add x s) acc arr ↔ y ∈ acc ∨ y ∈ arr.
Proof.
  revert acc. induction arr as [|x arr IH]; intros acc Hacc; simpl.
  - split; [done |]. intros y. rewrite elem_of_nil. tauto.
  - destruct (IH (Js.set_add x acc) (set_add_NoDup x acc Hacc)) as [Hnd Hel].
    split; [done |]. intros y.
    rewrite Hel, set_add_elem, elem_of_cons. tauto.
Qed.

Lemma set_of_NoDup {A} `{EqDecision A} (arr : list A) : NoDup (Js.set_of arr).
Proof. apply foldl_set_add, NoDup_nil_2. Qed.



Section Counters.

Implicit Types (wn : gmap string Counter) (n : string) (names : list string).

Lemma ordinary_not_proto n : ordinary n → n ≠ "__proto__".
Proof. intros Hn ->. discriminate Hn. Qed.

(** A name [Object.prototype] does not define reads as the own property. *)
Lemma prop_get_ordinary {A} (o : gmap string A) n :
  ordinary n → prop_get o n = Own <$> o !! n.
Proof.
  intros Hn. unfold prop_get. destruct (o !! n); [done |].
  unfold ordinary in Hn. by rewrite Hn.
Qed.

Lemma prop_get_own {A} (o : gmap string A) n (a : A) :
  o !! n = Some a → prop_get o n = Some (Own a).
Proof. intros Ho. unfold prop_get. by rewrite Ho. Qed.

Lemma prop_get_None {A} (o : gmap string A) n :
  prop_get o n = None ↔ o !! n = None ∧ ordinary n.
Proof.
  unfold prop_get, ordinary. destruct (o !! n) as [a |].
  - split; [done | by intros [? _]].
  - destruct (inherited n); (split; [done |]); [by intros [_ ?] | done].
Qed.

Lemma prop_get_Own {A} (o : gmap string A) n (a : A) :
  prop_get o n = Some (Own a) ↔ o !! n = Some a.
Proof.
  unfold prop_get. destruct (o !! n) as [a' |].
  - split; by intros [= ->].
  - by destruct (inherited n).
Qed.

Lemma assign_counter_lookup wn m c n :
  ordinary n →
  assign_counter wn m c !! n = if decide (n = m) then Some c else wn !! n.
Proof.
  intros Hn. unfold assign_counter.
  destruct (decide (n = m)) as [<- | Hne].
  - rewrite (proj2 (String.eqb_neq n "__proto__")) by by apply ordinary_not_proto.
    simpl. by rewrite lookup_insert_eq.
  - destruct (_ && _); [done |]. by rewrite lookup_insert_ne.
Qed.

Lemma incr_lookup wn m n :
  ordinary n →
  incr wn m !! n =
  if decide (n = m) then Some (or0_add1 (Own <$> wn !! n)) else wn !! n.
Proof.
  intros Hn. unfold incr. rewrite assign_counter_lookup by done.
  destruct (decide (n = m)) as [<- | Hne]; [| done].
  by rewrite prop_get_ordinary.
Qed.

Lemma decr_lookup wn m n :
  ordinary n →
  decr wn m !! n =
  if decide (n = m)
  then (if strictly_zero (Some (Own (or0_sub1 (Own <$> wn !! n)))) then None
        else Some (or0_sub1 (Own <$> wn !! n)))
  else wn !! n.
Proof.
  intros Hn. unfold decr. cbv zeta.
  destruct (decide (n = m)) as [<- | Hne].
  - rewrite (prop_get_ordinary (assign_counter _ _ _)) by done.
    rewrite assign_counter_lookup, decide_True by done.
    rewrite prop_get_ordinary by done. simpl fmap at 1.
    destruct (strictly_zero _).
    + by rewrite lookup_delete_eq.
    + by rewrite assign_counter_lookup, decide_True.
  - destruct (strictly_zero _).
    + rewrite lookup_delete_ne by done.
      by rewrite assign_counter_lookup, decide_False.
    + by rewrite assign_counter_lookup, decide_False.
Qed.

(** The inner loop of a registration adds one to every watched name. *)
Lemma foldl_incr_lookup names wn n :
  ordinary n → NoDup names →
  foldl incr wn names !! n =
  if decide (n ∈ names) then Some (or0_add1 (Own <$> wn !! n)) else wn !! n.
Proof.
  intros Hord.
  revert wn. induction names as [|m names IH]; intros wn Hnd; simpl.
  - destruct (decide (n ∈ [])) as [?%elem_of_nil | _]; done.
  - apply NoDup_cons in Hnd as [Hm Hnd]. rewrite IH by done.
    rewrite incr_lookup by done.
    destruct (decide (n ∈ names)) as [Hin | Hout].
    + destruct (decide (n = m)) as [-> | Hne]; [done |].
      rewrite decide_True by (by right). done.
    + destruct (decide (n = m)) as [-> | Hne].
      * rewrite decide_True by (by left). done.
      * rewrite decide_False; [done |].
        by intros [? | ?]%elem_of_cons.
Qed.

(** The inner loop of [unsubscribe] takes one from every watched name and
    deletes the counters that reach zero. *)
Lemma foldl_decr_lookup names wn n :
  ordinary n → NoDup names →
  foldl decr wn names !! n =
  if decide (n ∈ names)
  then (if strictly_zero (Some (Own (or0_sub1 (Own <$> wn !! n)))) then None
        else Some (or0_sub1 (Own <$> wn !! n)))
  else wn !! n.
Proof.
  intros Hord.
  revert wn. induction names as [|m names IH]; intros wn Hnd; simpl.
  - destruct (decide (n ∈ [])) as [?%elem_of_nil | _]; done.
  - apply NoDup_cons in Hnd as [Hm Hnd]. rewrite IH by done.
    rewrite decr_lookup by done.
    destruct (decide (n ∈ names)) as [Hin | Hout];
      destruct (decide (n = m)) as [-> | Hne];
      destruct (decide (_ ∈ m :: names)) as [Hin' | Hout'];
      try done.
    + exfalso. apply Hout'. by right.
    + exfalso. apply Hout'. by left.
    + by apply elem_of_cons in Hin' as [? | ?].
Qed.

(** What one increment leaves under the name it increments depends on
    what was there only. *)
Lemma incr_self wn n :
  incr wn n !! n =
  if String.eqb n "__proto__" && negb (bool_decide (is_Some (wn !! n)))
  then wn !! n
  else Some (or0_add1 (prop_get wn n)).
Proof.
  unfold incr, assign_counter. destruct (_ && _); [done |].
  by rewrite lookup_insert_eq.
Qed.

Lemma incr_other wn m n : n ≠ m → incr wn m !! n = wn !! n.
Proof.
  intros Hne. unfold incr, assign_counter. destruct (_ && _); [done |].
  by rewrite lookup_insert_ne.
Qed.

Lemma incr_self_congr wn wn' n :
  wn !! n = wn' !! n → incr wn n !! n = incr wn' n !! n.
Proof.
  intros Heq. rewrite !incr_self. unfold prop_get. by rewrite Heq.
Qed.

(** The loop of a registration increments each name of a duplicate-free
    list once. *)
Lemma foldl_incr_once names wn n :
  NoDup names →
  foldl incr wn names !! n =
  if decide (n ∈ names) then incr wn n !! n else wn !! n.
Proof.
  revert wn. induction names as [|m names IH]; intros wn Hnd; simpl.
  - destruct (decide (n ∈ [])) as [?%elem_of_nil | _]; done.
  - apply NoDup_cons in Hnd as [Hm Hnd]. rewrite IH by done.
    destruct (decide (n ∈ names)) as [Hin | Hout].
    + rewrite decide_True by (by right).
      apply incr_self_congr, incr_other. by intros ->.
    + destruct (decide (n = m)) as [-> | Hne].
      * by rewrite decide_True by (by left).
      * rewrite decide_False by (by intros [? | ?]%elem_of_cons).
        by apply incr_other.
Qed.

(** Names outside the list are not touched by the loops. *)
Lemma foldl_incr_other names wn n :
  n ∉ names → foldl incr wn names !! n = wn !! n.
Proof.
  revert wn. induction names as [|m names IH]; intros wn Hout; [done |].
  apply not_elem_of_cons in Hout as [Hne Hout]. simpl. rewrite IH by done.
  unfold incr, assign_counter. destruct (_ && _); [done |].
  by rewrite lookup_insert_ne.
Qed.

Lemma foldl_decr_other names wn n :
  n ∉ names → foldl decr wn names !! n = wn !! n.
Proof.
  revert wn. induction names as [|m names IH]; intros wn Hout; [done |].
  apply not_elem_of_cons in Hout as [Hne Hout]. simpl. rewrite IH by done.
  unfold decr. cbv zeta.
  assert (assign_counter wn m (or0_sub1 (prop_get wn m)) !! n = wn !! n) as Ha.
  { unfold assign_counter. destruct (_ && _); [done |].
    by rewrite lookup_insert_ne. }
  destruct (strictly_zero _); [| done].
  by rewrite lookup_delete_ne.
Qed.

End Counters.

(** ** Lists *)

Lemma filter_all {A} (P : A → Prop) `{∀ x, Decision (P x)} (l : list A) :
  (∀ x, x ∈ l → P x) → filter P l = l.
Proof.
  induction l as [|x l IH]; intros HP; [done |].
  rewrite filter_cons_True by (apply HP; by left).
  rewrite IH; [done |]. intros y Hy. apply HP. by right.
Qed.

Lemma filter_none {A} (P : A → Prop) `{∀ x, Decision (P x)} (l : list A) :
  (∀ x, x ∈ l → ¬ P x) → filter P l = [].
Proof.
  induction l as [|x l IH]; intros HP; [done |].
  rewrite filter_cons_False by (apply HP; by left).
  apply IH. intros y Hy. apply HP. by right.
Qed.

(** ** Notification *)

Section Notification.

Context {Obj : Type} (isEqual : Obj → Obj → bool).

Implicit Types (s : DataStore Obj) (w : World Obj) (f : nat * Closure)
  (e : Event Obj) (evs : list (Event Obj)) (data : option (Resource Obj))
  (name n : string).


Lemma call_fires s f name data :
  call s f name data = if fires f.2 name then [the_call s f name data] else [].
Proof. unfold call, fires, the_call. by destruct f.2. Qed.

Lemma call_event s f name data e :
  e ∈ call s f name data →
  event_fn e = f.1 ∧ event_name e = name ∧ event_data e = data.
Proof.
  rewrite call_fires. destruct (fires f.2 name); [| by intros ?%elem_of_nil].
  intros ->%list_elem_of_singleton. unfold the_call. by destruct f.2.
Qed.

Lemma call_same_entries s s' f name data :
  _d s = _d s' → call s f name data = call s' f name data.
Proof.
  intros Hd. unfold call, array_view, get. by rewrite Hd.
Qed.

Lemma calls_of_call_same s f name data :
  calls_of f.1 (call s f name data) = call s f name data.
Proof.
  unfold calls_of. rewrite call_fires. destruct (fires f.2 name); [| done].
  rewrite filter_cons_True; [done |]. unfold the_call. by destruct f.2.
Qed.

Lemma calls_of_call_other s f name data fn :
  f.1 ≠ fn → calls_of fn (call s f name data) = [].
Proof.
  intros Hne. unfold calls_of. rewrite call_fires.
  destruct (fires f.2 name); [| done].
  rewrite filter_cons_False; [done |]. unfold the_call. by destruct f.2.
Qed.

Lemma calls_of_app fn evs evs' :
  calls_of fn (evs ++ evs') = calls_of fn evs ++ calls_of fn evs'.
Proof. apply filter_app. Qed.

Lemma calls_of_flat_map s (fs : list (nat * Closure)) f name data :
  NoDup fs.*1 → f ∈ fs →
  calls_of f.1 (flat_map (fun g => call s g name data) fs) = call s f name data.
Proof.
  induction fs as [|g fs IH]; intros Hnd Hin; [by apply elem_of_nil in Hin |].
  rewrite fmap_cons in Hnd. apply NoDup_cons in Hnd as [Hg Hnd].
  simpl. rewrite calls_of_app.
  apply elem_of_cons in Hin as [-> | Hin].
  - rewrite calls_of_call_same.
    enough (calls_of g.1 (flat_map (fun g0 => call s g0 name data) fs) = [])
      as -> by apply app_nil_r.
    clear IH. induction fs as [|g' fs IH]; [done |].
    simpl. rewrite calls_of_app.
    rewrite fmap_cons in Hg, Hnd. apply NoDup_cons in Hnd as [_ Hnd].
    rewrite calls_of_call_other, IH; [done | | done |].
    + intros Hin. apply Hg. by right.
    + intros Heq. apply Hg. rewrite <- Heq. by left.
  - rewrite calls_of_call_other, IH; [done | done | done |].
    intros Heq. apply Hg. rewrite Heq. by apply list_elem_of_fmap_2.
Qed.

(** [_publish] calls every registered closure once, in registration order. *)
Lemma publish_calls_of s f name data :
  NoDup (_cbs s).*1 → f ∈ _cbs s →
  calls_of f.1 (_publish s name data) = call s f name data.
Proof. apply calls_of_flat_map. Qed.

Lemma publish_event s name data e :
  e ∈ _publish s name data →
  (∃ f, f ∈ _cbs s ∧ event_fn e = f.1) ∧
  event_name e = name ∧ event_data e = data.
Proof.
  unfold _publish. intros Hin. apply list_elem_of_In, in_flat_map in Hin.
  destruct Hin as (f & Hf%list_elem_of_In & He%list_elem_of_In).
  apply call_event in He as (? & ? & ?). eauto.
Qed.

(** Removing closures removes their calls and leaves the other calls as
    they were. *)
Lemma publish_without s s' (X : list nat) name data :
  _d s' = _d s → _cbs s' = filter (fun f => f.1 ∉ X) (_cbs s) →
  _publish s' name data =
  filter (fun e => event_fn e ∉ X) (_publish s name data).
Proof.
  intros Hd Hcbs. unfold _publish. rewrite Hcbs. clear Hcbs.
  induction (_cbs s) as [|g fs IH]; [done |].
  rewrite filter_cons. simpl flat_map at 2. rewrite filter_app, <- IH.
  destruct (decide (g.1 ∉ X)) as [Hout | Hin].
  - simpl flat_map. rewrite (call_same_entries s' s g name data Hd).
    f_equal. symmetry. apply filter_all.
    intros e (-> & _)%call_event. done.
  - rewrite (filter_none _ (call s g name data)); [done |].
    intros e (-> & _)%call_event. done.
Qed.

Lemma publish_no_closures s name data :
  _cbs s = [] → _publish s name data = [].
Proof. unfold _publish. by intros ->. Qed.

(** [add] touches neither the registered closures nor the counters. *)
Lemma add_item_frame (st : AddLoop Obj) (item : Resource Obj) :
  _cbs (loop_store (add_item isEqual st item)) = _cbs (loop_store st) ∧
  _w (loop_store (add_item isEqual st item)) = _w (loop_store st).
Proof.
  unfold add_item. destruct (loop_raised st); [done |].
  destruct (prop_get _ _) as [[cur | p] |]; simpl; try done.
  by destruct (isResourceEqual isEqual item cur).
Qed.

Lemma add_items_frame (items : list (Resource Obj)) (st : AddLoop Obj) :
  _cbs (loop_store (foldl (add_item isEqual) st items)) = _cbs (loop_store st) ∧
  _w (loop_store (foldl (add_item isEqual) st items)) = _w (loop_store st).
Proof.
  revert st. induction items as [|item items IH]; intros st; [done |].
  simpl. destruct (IH (add_item isEqual st item)) as [-> ->].
  apply add_item_frame.
Qed.

(** The calls made during [add] are made by registered closures. *)
Lemma add_item_events (st : AddLoop Obj) (item : Resource Obj) e :
  e ∈ loop_events (add_item isEqual st item) →
  e ∈ loop_events st ∨ ∃ f, f ∈ _cbs (loop_store st) ∧ event_fn e = f.1.
Proof.
  assert (e ∈ loop_events st ++
            _publish {| _d := <[getName item := item]> (_d (loop_store st));
                        _cbs := _cbs (loop_store st);
                        _w := _w (loop_store st) |}
                     (getName item) (Some item) →
          e ∈ loop_events st ∨
          ∃ f, f ∈ _cbs (loop_store st) ∧ event_fn e = f.1) as Hstored.
  { intros [? | Hp]%elem_of_app; [by left | right].
    by apply publish_event in Hp as [? _]. }
  unfold add_item. destruct (loop_raised st); [by left |].
  destruct (prop_get _ _) as [[cur | p] |]; simpl; try done; try (by left).
  destruct (isResourceEqual isEqual item cur); simpl; [by left | done].
Qed.

Lemma add_items_events (items : list (Resource Obj)) (st : AddLoop Obj) e :
  e ∈ loop_events (foldl (add_item isEqual) st items) →
  e ∈ loop_events st ∨ ∃ f, f ∈ _cbs (loop_store st) ∧ event_fn e = f.1.
Proof.
  revert st. induction items as [|item items IH]; intros st; [by left |].
  simpl. intros [He | (f & Hf & Hfn)]%IH.
  - by apply add_item_events in He.
  - right. exists f. by rewrite <- (proj1 (add_item_frame st item)).
Qed.

End Notification.

(** ** Reference counts *)

Section RefCounts.

Context {Obj : Type}.

Implicit Types (s : DataStore Obj) (fs : list (nat * Closure))
  (f : nat * Closure) (n : string) (names : list string).

Lemma refcount_nonneg fs n : (0 ≤ refcount fs n)%Z.
Proof. unfold refcount. lia. Qed.

Lemma refcount_snoc fs f n :
  refcount (fs ++ [f]) n =
  (refcount fs n + if decide (n ∈ closure_names f.2) then 1 else 0)%Z.
Proof.
  unfold refcount. rewrite filter_app, length_app, filter_cons, filter_nil.
  destruct (decide (n ∈ closure_names f.2)); simpl; lia.
Qed.

Lemma filter_fst_NoDup (P : nat * Closure → Prop) `{∀ x, Decision (P x)} fs :
  NoDup fs.*1 → NoDup (filter P fs).*1.
Proof.
  induction fs as [|g fs IH]; [done |].
  rewrite fmap_cons. intros [Hg Hnd]%NoDup_cons.
  rewrite filter_cons. destruct (decide (P g)); [| by apply IH].
  rewrite fmap_cons. apply NoDup_cons. split; [| by apply IH].
  intros (g' & Heq & [_ Hin]%list_elem_of_filter)%list_elem_of_fmap.
  apply Hg. rewrite Heq. by apply list_elem_of_fmap_2.
Qed.

Lemma filter_other_addr fs fn :
  fn ∉ fs.*1 → filter (fun f => f.1 ≠ fn) fs = fs.
Proof.
  induction fs as [|g fs IH]; [done |].
  rewrite fmap_cons. intros Hout.
  rewrite filter_cons_True, IH; [done | |].
  - intros Hin. apply Hout. by right.
  - intros Heq. apply Hout. rewrite <- Heq. by left.
Qed.

(** Removing the closure at one address takes one from the count of each
    name it watches. *)
Lemma refcount_remove fs fn c n :
  NoDup fs.*1 → (fn, c) ∈ fs →
  refcount (filter (fun f => f.1 ≠ fn) fs) n =
  (refcount fs n - if decide (n ∈ closure_names c) then 1 else 0)%Z.
Proof.
  induction fs as [|g fs IH]; intros Hnd Hin; [by apply elem_of_nil in Hin |].
  rewrite fmap_cons in Hnd. apply NoDup_cons in Hnd as [Hg Hnd].
  apply elem_of_cons in Hin as [<- | Hin].
  - rewrite filter_cons_False by (simpl; intros Hne; by apply Hne).
    rewrite filter_other_addr by done.
    unfold refcount. rewrite filter_cons. simpl.
    destruct (decide (n ∈ closure_names c)); simpl; lia.
  - assert (g.1 ≠ fn) as Hne.
    { intros <-. apply Hg. by apply (list_elem_of_fmap_2 fst) in Hin. }
    rewrite filter_cons_True by done.
    specialize (IH Hnd Hin). unfold refcount in *.
    rewrite !filter_cons.
    destruct (decide (n ∈ closure_names g.2)); simpl length; lia.
Qed.

Lemma counts_ok_add1 s n :
  ordinary n → counts_ok s →
  or0_add1 (Own <$> _w s !! n) = Num (refcount (_cbs s) n + 1).
Proof.
  intros Hn Hok. rewrite (Hok n Hn).
  destruct (decide (refcount (_cbs s) n = 0%Z)) as [-> | _]; done.
Qed.

Lemma counts_ok_sub1 s n :
  ordinary n → counts_ok s →
  or0_sub1 (Own <$> _w s !! n) = Num (refcount (_cbs s) n - 1).
Proof.
  intros Hn Hok. rewrite (Hok n Hn).
  destruct (decide (refcount (_cbs s) n = 0%Z)) as [-> | _]; done.
Qed.

Lemma counts_ok_positive s n c :
  ordinary n → counts_ok s → _w s !! n = Some c → ∃ k, c = Num k ∧ (0 < k)%Z.
Proof.
  intros Hn Hok. rewrite (Hok n Hn).
  destruct (decide (refcount (_cbs s) n = 0%Z)) as [| Hnz]; [done |].
  intros [= <-]. pose proof (refcount_nonneg (_cbs s) n).
  eexists. split; [done | lia].
Qed.

(** A registration keeps the counters exact. *)
Lemma counts_ok_register s (a : nat) (c : Closure) :
  counts_ok s → NoDup (closure_names c) →
  counts_ok {| _d := _d s;
               _cbs := _cbs s ++ [(a, c)];
               _w := foldl incr (_w s) (closure_names c) |}.
Proof.
  intros Hok Hnd n Hn. simpl.
  rewrite foldl_incr_lookup, refcount_snoc by done. simpl.
  pose proof (refcount_nonneg (_cbs s) n).
  destruct (decide (n ∈ closure_names c)).
  - rewrite counts_ok_add1, decide_False by (done || lia). done.
  - rewrite Z.add_0_r. by apply Hok.
Qed.

(** One round of the loop of [unsubscribe] keeps the counters exact. *)
Lemma counts_ok_unsubscribe_cb s (cbs0 : list nat) (fn : nat) (c : Closure) :
  counts_ok s → NoDup (_cbs s).*1 → NoDup (closure_names c) →
  (fn, c) ∈ _cbs s →
  counts_ok (unsubscribe_cb (closure_names c) (s, cbs0) fn).1.
Proof.
  intros Hok Haddr Hnd Hin n Hn. simpl.
  rewrite foldl_decr_lookup, (refcount_remove _ _ c) by done.
  destruct (decide (n ∈ closure_names c)).
  - rewrite counts_ok_sub1 by done. simpl.
    destruct (decide (refcount (_cbs s) n - 1 = 0)%Z) as [Hz | Hnz].
    + by rewrite (proj2 (Z.eqb_eq _ _) Hz).
    + by rewrite (proj2 (Z.eqb_neq _ _) Hnz).
  - rewrite Z.sub_0_r. by apply Hok.
Qed.

(** The loop of [unsubscribe] over the closures [todo] of a handle. *)
Lemma unsubscribe_loop names (todo : list nat) s (cbs0 : list nat) :
  counts_ok s → NoDup (_cbs s).*1 → NoDup names → NoDup todo →
  (∀ fn, fn ∈ todo → ∃ c, (fn, c) ∈ _cbs s ∧ closure_names c = names) →
  let st := foldl (unsubscribe_cb names) (s, cbs0) todo in
  counts_ok st.1 ∧
  _d st.1 = _d s ∧
  _cbs st.1 = filter (fun f => f.1 ∉ todo) (_cbs s) ∧
  st.2 = filter (fun g => g ∉ todo) cbs0 ∧
  ∀ n, refcount (_cbs st.1) n =
       (refcount (_cbs s) n -
        if decide (n ∈ names) then Z.of_nat (length todo) else 0)%Z.
Proof.
  revert s cbs0. induction todo as [|fn todo IH];
    intros s cbs0 Hok Haddr Hnames Htodo Hreg; simpl.
  - split; [done |]. split; [done |].
    split. { symmetry. apply filter_all. intros f _. apply not_elem_of_nil. }
    split. { symmetry. apply filter_all. intros g _. apply not_elem_of_nil. }
    intros n. destruct (decide (n ∈ names)); lia.
  - apply NoDup_cons in Htodo as [Hfn Htodo].
    destruct (Hreg fn) as (c & Hc & Hcn); [by left |]. subst names.
    pose proof (counts_ok_unsubscribe_cb s cbs0 fn c Hok Haddr Hnames Hc) as Hok1.
    set (st1 := unsubscribe_cb (closure_names c) (s, cbs0) fn) in *.
    destruct (IH st1.1 st1.2) as (Hok2 & Hd2 & Hcbs2 & Hh2 & Hrc2);
      [done | by apply filter_fst_NoDup | done | done | |].
    { intros fn' Hfn'. destruct (Hreg fn') as (c' & Hc' & Hcn'); [by right |].
      exists c'. split; [| done]. simpl. apply list_elem_of_filter.
      split; [| done]. simpl. intros ->. done. }
    replace (st1.1, st1.2) with st1 in * by (by destruct st1).
    split; [done |]. split; [by rewrite Hd2 |].
    split.
    { rewrite Hcbs2. simpl. rewrite list_filter_filter.
      apply list_filter_iff. intros f. rewrite not_elem_of_cons. tauto. }
    split.
    { rewrite Hh2. simpl. rewrite list_filter_filter.
      apply list_filter_iff. intros g. rewrite not_elem_of_cons. tauto. }
    intros n. rewrite Hrc2. simpl _cbs.
    rewrite (refcount_remove _ _ c) by done.
    destruct (decide (n ∈ closure_names c)); lia.
Qed.

End RefCounts.

(** ** The invariant *)

Section Invariant.

Context {Obj : Type} (isEqual : Obj → Obj → bool).

Implicit Types (s : DataStore Obj) (w : World Obj) (h : nat) (hd : WatchFunc).

Lemma Inv_init : Inv (init (Obj:=Obj)).
Proof.
  constructor; simpl.
  - intros n _. apply lookup_empty.
  - apply NoDup_nil_2.
  - by intros f ?%elem_of_nil.
  - by intros ???? ?%elem_of_nil.
  - intros h hd. by rewrite lookup_nil.
  - intros h hd. by rewrite lookup_nil.
  - intros h hd fn. by rewrite lookup_nil.
  - intros h1 h2 hd1 hd2 fn _. by rewrite lookup_nil.
Qed.

(** Operations that leave the closures and the counters alone keep the
    invariant: [add]'s loop, [del] and [garbageCollect]. *)
Lemma Inv_with_store w s :
  Inv w → _cbs s = _cbs (store w) → _w s = _w (store w) →
  Inv (with_store w s).
Proof.
  intros [Hc Hnd Hfr Harr Hn Hhn Hhc Hdj] Hcbs Hw.
  constructor; simpl; rewrite ?Hcbs; try done.
  intros n Hord. rewrite Hcbs, Hw. by apply Hc.
Qed.

(** A new handle has registered nothing yet. *)
Lemma Inv_new_handle w (L : list string) :
  Inv w →
  Inv {| store := store w;
         handles := handles w ++
           [{| namesArr := L; names := Js.set_of L; cbs := [] |}];
         fresh := fresh w |}.
Proof.
  intros [Hc Hnd Hfr Harr Hn Hhn Hhc Hdj].
  constructor; simpl; try done.
  - intros h hd [[_ ?] | [_ <-]]%lookup_snoc_Some; [by eapply Hn | done].
  - intros h hd [[_ ?] | [_ <-]]%lookup_snoc_Some; [by eapply Hhn |].
    apply NoDup_nil_2.
  - intros h hd fn [[_ ?] | [_ <-]]%lookup_snoc_Some; [by eapply Hhc |].
    by intros ?%elem_of_nil.
  - intros h1 h2 hd1 hd2 fn Hne
      [[_ H1] | [_ <-]]%lookup_snoc_Some [[_ H2] | [_ <-]]%lookup_snoc_Some;
      simpl; try (by intros ?%elem_of_nil); try (intros _; apply not_elem_of_nil).
    by eapply Hdj.
Qed.

Lemma Inv_watch w (L : list string) : Inv w → Inv (watch w L).1.
Proof. apply Inv_new_handle. Qed.

Lemma add_frame w (items : list (Resource Obj)) :
  _cbs (store (add isEqual w items).1.1) = _cbs (store w) ∧
  _w (store (add isEqual w items).1.1) = _w (store w).
Proof.
  unfold add, add_loop.
  pose proof (add_items_frame isEqual items
                (mkAddLoop (store w) [] [] false)) as [Hcbs Hw].
  by destruct (loop_raised _).
Qed.

Lemma add_handles w (items : list (Resource Obj)) h hd :
  handles w !! h = Some hd → handles (add isEqual w items).1.1 !! h = Some hd.
Proof.
  intros Hh. unfold add. destruct (loop_raised _); simpl; [done |].
  by apply lookup_app_l_Some.
Qed.

Lemma step_add w (items : list (Resource Obj)) :
  step isEqual w (OAdd items) = ((add isEqual w items).1.1, (add isEqual w items).2).
Proof. simpl. by destruct (add isEqual w items) as [[w' h'] evs]. Qed.

Lemma Inv_add w (items : list (Resource Obj)) :
  Inv w → Inv (add isEqual w items).1.1.
Proof.
  intros HI. unfold add, add_loop.
  pose proof (add_items_frame isEqual items
                (mkAddLoop (store w) [] [] false)) as [Hcbs Hw].
  destruct (loop_raised _); simpl.
  - by apply Inv_with_store.
  - apply (Inv_new_handle (with_store w _)). by apply Inv_with_store.
Qed.

(** A handle's closures sit below the next free address. *)
Lemma handle_cbs_below w h hd fn :
  Inv w → handles w !! h = Some hd → fn ∈ cbs hd → fn < fresh w.
Proof.
  intros HI Hh Hfn.
  destruct (inv_handle_cbs w HI h hd fn Hh Hfn) as (c & Hc & _).
  apply (inv_addr_fresh w HI (fn, c) Hc).
Qed.

Lemma Inv_register w h (mk : WatchFunc → Closure) :
  (∀ hd, closure_names (mk hd) = names hd) →
  (∀ hd ns L cb, mk hd = ArrayCb ns L cb → ns = names hd ∧ L = namesArr hd) →
  Inv w → Inv (register w h mk).
Proof.
  intros Hmk Harrmk HI. unfold register.
  destruct (handles w !! h) as [hd |] eqn:Hh; [| done].
  pose proof HI as [Hc Hnd Hfr Harr Hn Hhn Hhc Hdj].
  assert (NoDup (names hd)) as Hnames.
  { rewrite (Hn h hd Hh). apply set_of_NoDup. }
  assert (fresh w ∉ (_cbs (store w)).*1) as Hfresh.
  { intros (f & Heq & Hf)%list_elem_of_fmap. apply Hfr in Hf. lia. }
  constructor; simpl.
  - rewrite <- (Hmk hd). apply counts_ok_register; [done |]. by rewrite Hmk.
  - rewrite fmap_app. apply NoDup_app. split; [done |].
    split; [| apply NoDup_singleton].
    intros x Hx ->%list_elem_of_singleton. done.
  - intros f [Hf | ->%list_elem_of_singleton]%elem_of_app; [| simpl; lia].
    apply Hfr in Hf. lia.
  - intros fn ns L cb [Hf | Heq%list_elem_of_singleton]%elem_of_app.
    + by eapply Harr.
    + injection Heq as _ Heq. symmetry in Heq.
      apply Harrmk in Heq as [-> ->]. by eapply Hn.
  - intros h' hd' [(<- & <- & _) | [_ ?]]%list_lookup_insert_Some; simpl.
    + by eapply Hn.
    + by eapply Hn.
  - intros h' hd' [(<- & <- & _) | [_ ?]]%list_lookup_insert_Some; simpl.
    + apply NoDup_app. split; [by eapply Hhn |].
      split; [| apply NoDup_singleton].
      intros x Hx ->%list_elem_of_singleton.
      pose proof (handle_cbs_below w h hd _ HI Hh Hx). lia.
    + by eapply Hhn.
  - intros h' hd' fn [(<- & <- & _) | [Hne Hh']]%list_lookup_insert_Some; simpl.
    + intros [Hfn | ->%list_elem_of_singleton]%elem_of_app.
      * destruct (Hhc h hd fn Hh Hfn) as (c & Hc' & Hcn).
        exists c. split; [| done]. apply elem_of_app. by left.
      * exists (mk hd). split; [| apply Hmk].
        apply elem_of_app. right. by apply list_elem_of_singleton.
    + intros Hfn. destruct (Hhc h' hd' fn Hh' Hfn) as (c & Hc' & Hcn).
      exists c. split; [| done]. apply elem_of_app. by left.
  - intros h1 h2 hd1 hd2 fn Hne
      [(<- & <- & _) | [Hne1 H1]]%list_lookup_insert_Some
      [(<- & <- & _) | [Hne2 H2]]%list_lookup_insert_Some; simpl; try done.
    + intros [Hfn | ->%list_elem_of_singleton]%elem_of_app.
      * by eapply (Hdj h h2).
      * intros Hin. pose proof (handle_cbs_below w h2 hd2 _ HI H2 Hin). lia.
    + intros Hfn [Hin | ->%list_elem_of_singleton]%elem_of_app.
      * by eapply (Hdj h1 h).
      * pose proof (handle_cbs_below w h1 hd1 _ HI H1 Hfn). lia.
    + exact (Hdj h1 h2 hd1 hd2 fn Hne H1 H2).
Qed.

Lemma watchFunc_register w h (cb : nat) :
  watchFunc w h cb = register w h (fun hd => PlainCb (names hd) cb).
Proof. reflexivity. Qed.

Lemma arrayWatcher_register w h (cb : nat) :
  arrayWatcher w h cb =
  register w h (fun hd => ArrayCb (names hd) (namesArr hd) cb).
Proof. reflexivity. Qed.

Lemma Inv_watchFunc w h (cb : nat) : Inv w → Inv (watchFunc w h cb).
Proof.
  rewrite watchFunc_register. apply Inv_register; [done | by intros ????].
Qed.

Lemma Inv_arrayWatcher w h (cb : nat) : Inv w → Inv (arrayWatcher w h cb).
Proof.
  rewrite arrayWatcher_register. apply Inv_register; [done |].
  by intros ???? [= <- <- _].
Qed.

(** What [unsubscribe] does to a world that satisfies the invariant. *)
Lemma unsubscribe_effect w h hd :
  Inv w → handles w !! h = Some hd →
  let w' := unsubscribe w h in
  counts_ok (store w') ∧
  _d (store w') = _d (store w) ∧
  _cbs (store w') = filter (fun f => f.1 ∉ cbs hd) (_cbs (store w)) ∧
  handles w' = <[h := {| namesArr := namesArr hd; names := names hd;
                         cbs := [] |}]> (handles w) ∧
  fresh w' = fresh w ∧
  ∀ n, refcount (_cbs (store w')) n =
       (refcount (_cbs (store w)) n -
        if decide (n ∈ names hd) then Z.of_nat (length (cbs hd)) else 0)%Z.
Proof.
  intros HI Hh. unfold unsubscribe. rewrite Hh. simpl.
  pose proof HI as [Hc Hnd Hfr Harr Hn Hhn Hhc Hdj].
  destruct (unsubscribe_loop (names hd) (cbs hd) (store w) (cbs hd))
    as (Hok & Hd & Hcbs & Hrest & Hrc); try done.
  - rewrite (Hn h hd Hh). apply set_of_NoDup.
  - by eapply Hhn.
  - intros fn Hfn. by eapply Hhc.
  - split; [done |]. split; [done |]. split; [done |].
    split; [| done]. rewrite Hrest. do 2 f_equal.
    apply filter_none. by intros g Hg Hout.
Qed.

End Invariant.

(** ** Reachable worlds *)

Section Reachable.

Context {Obj : Type} (isEqual : Obj → Obj → bool).

Implicit Types (s : DataStore Obj) (w : World Obj) (h : nat) (hd : WatchFunc)
  (ops : list (Op Obj)).

Lemma Inv_unsubscribe w h : Inv w → Inv (unsubscribe w h).
Proof.
  intros HI. destruct (handles w !! h) as [hd |] eqn:Hh;
    [| unfold unsubscribe; by rewrite Hh].
  destruct (unsubscribe_effect w h hd HI Hh)
    as (Hok & Hd & Hcbs & Hhs & Hfresh & _).
  pose proof HI as [Hc Hnd Hfr Harr Hn Hhn Hhc Hdj].
  constructor; rewrite ?Hcbs, ?Hhs, ?Hfresh.
  - done.
  - by apply filter_fst_NoDup.
  - intros f [_ Hf]%list_elem_of_filter. by apply Hfr.
  - intros fn ns L cb [_ Hf]%list_elem_of_filter. by eapply Harr.
  - intros h' hd' [(<- & <- & _) | [_ ?]]%list_lookup_insert_Some; simpl;
      by eapply Hn.
  - intros h' hd' [(<- & <- & _) | [_ ?]]%list_lookup_insert_Some; simpl;
      [apply NoDup_nil_2 | by eapply Hhn].
  - intros h' hd' fn [(<- & <- & _) | [Hne Hh']]%list_lookup_insert_Some; simpl.
    + by intros ?%elem_of_nil.
    + intros Hfn. destruct (Hhc h' hd' fn Hh' Hfn) as (c & Hc' & Hcn).
      exists c. split; [| done]. apply list_elem_of_filter. split; [| done].
      simpl. apply (Hdj h' h hd' hd fn); [by intros -> | done..].
  - intros h1 h2 hd1 hd2 fn Hne
      [(<- & <- & _) | [Hne1 H1]]%list_lookup_insert_Some
      [(<- & <- & _) | [Hne2 H2]]%list_lookup_insert_Some; simpl; try done.
    + by intros ?%elem_of_nil.
    + intros _. apply not_elem_of_nil.
    + exact (Hdj h1 h2 hd1 hd2 fn Hne H1 H2).
Qed.

Lemma Inv_step w (o : Op Obj) : Inv w → Inv (step isEqual w o).1.
Proof.
  intros HI. destruct o as [items | name | L | h cb | h cb | h |]; simpl.
  - pose proof (Inv_add isEqual w items HI) as HI'.
    by destruct (add isEqual w items) as [[w' h'] evs].
  - by apply Inv_with_store.
  - by apply Inv_watch.
  - by apply Inv_watchFunc.
  - by apply Inv_arrayWatcher.
  - by apply Inv_unsubscribe.
  - by apply Inv_with_store.
Qed.

Lemma run_cons w (o : Op Obj) ops :
  run isEqual w (o :: ops) =
  ((run isEqual (step isEqual w o).1 ops).1,
   (step isEqual w o).2 ++ (run isEqual (step isEqual w o).1 ops).2).
Proof.
  simpl. destruct (step isEqual w o) as [w1 evs1]. simpl.
  by destruct (run isEqual w1 ops) as [w2 evs2].
Qed.

Lemma Inv_run w ops : Inv w → Inv (run isEqual w ops).1.
Proof.
  revert w. induction ops as [|o ops IH]; intros w HI; [done |].
  rewrite run_cons. simpl. by apply IH, Inv_step.
Qed.

(** Every world a client can reach satisfies the invariant. *)
Lemma reachable_Inv w : reachable isEqual w → Inv w.
Proof. intros [ops <-]. apply Inv_run, Inv_init. Qed.

Lemma reachable_init : reachable isEqual init.
Proof. by exists []. Qed.

Lemma run_app w ops ops' :
  run isEqual w (ops ++ ops') =
  ((run isEqual (run isEqual w ops).1 ops').1,
   (run isEqual w ops).2 ++ (run isEqual (run isEqual w ops).1 ops').2).
Proof.
  revert w. induction ops as [|o ops IH]; intros w.
  - simpl. by destruct (run isEqual w ops').
  - rewrite <- app_comm_cons, !run_cons, IH. simpl. by rewrite app_assoc.
Qed.

Lemma reachable_run w ops :
  reachable isEqual w → reachable isEqual (run isEqual w ops).1.
Proof.
  intros [ops0 <-]. exists (ops0 ++ ops). by rewrite run_app.
Qed.

(** The calls made during a step are made by closures registered when the
    step begins. *)
Lemma step_events w (o : Op Obj) e :
  e ∈ (step isEqual w o).2 → ∃ f, f ∈ _cbs (store w) ∧ event_fn e = f.1.
Proof.
  destruct o as [items | name | L | h cb | h cb | h |]; simpl;
    try (by intros ?%elem_of_nil).
  - unfold add, add_loop.
    pose proof (add_items_events isEqual items
                  (mkAddLoop (store w) [] [] false) e) as Hev.
    destruct (loop_raised _); simpl; intros He;
      destruct (Hev He) as [?%elem_of_nil | ?]; done.
  - intros He. by apply publish_event in He as [? _].
Qed.

(** Addresses that are neither registered nor free stay unused. *)
Lemma step_retired w (o : Op Obj) (X : list nat) :
  (∀ f, f ∈ _cbs (store w) → f.1 ∉ X) → (∀ x, x ∈ X → x < fresh w) →
  (∀ f, f ∈ _cbs (store (step isEqual w o).1) → f.1 ∉ X) ∧
  (∀ x, x ∈ X → x < fresh (step isEqual w o).1).
Proof.
  intros Hcbs Hfr.
  destruct o as [items | name | L | h cb | h cb | h |]; simpl; try done.
  - unfold add, add_loop.
    pose proof (add_items_frame isEqual items
                  (mkAddLoop (store w) [] [] false)) as [Hc _].
    destruct (loop_raised _); simpl; by rewrite Hc.
  - unfold watchFunc. destruct (handles w !! h); [| done]. simpl.
    split.
    + intros f [Hf | ->%list_elem_of_singleton]%elem_of_app; [by apply Hcbs |].
      simpl. intros Hin%Hfr. lia.
    + intros x Hx%Hfr. lia.
  - unfold arrayWatcher. destruct (handles w !! h); [| done]. simpl.
    split.
    + intros f [Hf | ->%list_elem_of_singleton]%elem_of_app; [by apply Hcbs |].
      simpl. intros Hin%Hfr. lia.
    + intros x Hx%Hfr. lia.
  - unfold unsubscribe. destruct (handles w !! h) as [hd |]; [| done]. simpl.
    split; [| done].
    enough (∀ todo st, (∀ f, f ∈ _cbs st.1 → f.1 ∉ X) →
              ∀ f, f ∈ _cbs (foldl (unsubscribe_cb (names hd)) st todo).1 →
                   f.1 ∉ X) as Hgen by (by apply Hgen).
    induction todo as [|fn todo IH]; intros st Hst; [done |].
    simpl. apply IH. simpl. intros f [_ Hf]%list_elem_of_filter. by apply Hst.
Qed.

Lemma run_retired w ops (X : list nat) e :
  (∀ f, f ∈ _cbs (store w) → f.1 ∉ X) → (∀ x, x ∈ X → x < fresh w) →
  e ∈ (run isEqual w ops).2 → event_fn e ∉ X.
Proof.
  revert w. induction ops as [|o ops IH]; intros w Hcbs Hfr.
  - by intros ?%elem_of_nil.
  - rewrite run_cons. simpl. intros [He | He]%elem_of_app.
    + apply step_events in He as (f & Hf & ->). by apply Hcbs.
    + destruct (step_retired w o X Hcbs Hfr) as [Hcbs' Hfr'].
      by apply (IH (step isEqual w o).1).
Qed.

End Reachable.

(** ** Garbage collection *)

Section GarbageCollect.

Context {Obj : Type}.

Implicit Types (s : DataStore Obj) (d : gmap string (Resource Obj))
  (k n : string).

Lemma gc_loop_lookup (keep : string → bool) (ks : list string) d k :
  foldl (fun d k => if keep k then d else delete k d) d ks !! k =
  if decide (k ∈ ks ∧ keep k = false) then None else d !! k.
Proof.
  revert d. induction ks as [|k0 ks IH]; intros d.
  - destruct (decide (k ∈ [] ∧ keep k = false)) as [[?%elem_of_nil _] | _];
      done.
  - simpl foldl. rewrite IH.
    destruct (decide (k ∈ ks ∧ keep k = false)) as [[Hin Hk] | Hno].
    + rewrite decide_True; [done |]. split; [by right | done].
    + destruct (decide (k ∈ k0 :: ks ∧ keep k = false)) as [[Hin Hk] | Hno'].
      * apply elem_of_cons in Hin as [-> | Hin]; [| by destruct Hno].
        rewrite Hk. apply lookup_delete_eq.
      * destruct (keep k0) eqn:Hk0; [done |].
        apply lookup_delete_ne. intros ->. apply Hno'. split; [by left | done].
Qed.

Lemma elem_of_keys d k : k ∈ (map_to_list d).*1 ↔ is_Some (d !! k).
Proof.
  rewrite list_elem_of_fmap. split.
  - intros ([k' x] & -> & Hin%elem_of_map_to_list). by exists x.
  - intros [x Hx]. exists (k, x). split; [done |]. by apply elem_of_map_to_list.
Qed.

Lemma find_none {A} (p : A → bool) (l : list A) :
  (∀ x, x ∈ l → p x = false) → List.find p l = None.
Proof.
  induction l as [|x l IH]; intros Hp; [done |].
  simpl. rewrite Hp by (by left). apply IH. intros y Hy. apply Hp. by right.
Qed.

(** While [_w] has no own property [hasOwnProperty], the method called in
    the test is the inherited one and nothing is raised. *)
Lemma gc_keeps_free (watchedNames : gmap string Counter) k :
  watchedNames !! "hasOwnProperty" = None →
  gc_keeps watchedNames k = Some (gc_own_test watchedNames k).
Proof.
  intros Hw. unfold gc_keeps, gc_own_test.
  enough (∀ l, find_raising (hasOwnProperty watchedNames) l =
               Some (List.find (fun name =>
                        bool_decide (is_Some (watchedNames !! name))) l))
    as -> by done.
  induction l as [|x l IH]; [done |].
  simpl. unfold hasOwnProperty at 1. rewrite Hw.
  by destruct (bool_decide (is_Some (watchedNames !! x))).
Qed.

(** Once [_w] has an own property [hasOwnProperty], the test raises. *)
Lemma gc_keeps_raises (watchedNames : gmap string Counter) k :
  is_Some (watchedNames !! "hasOwnProperty") →
  gc_keeps watchedNames k = None.
Proof.
  intros [c Hc]. unfold gc_keeps.
  destruct (watchNames k) as [|x l] eqn:Hk.
  - exfalso. revert Hk. unfold watchNames.
    pose proof (split_not_nil k) as Hs.
    destruct (Js.split k) as [|p ps]; [done |]. by destruct ps.
  - simpl. unfold hasOwnProperty. by rewrite Hc.
Qed.

Lemma gc_loop_raised (watchedNames : gmap string Counter) (ks : list string) d :
  foldl (gc_visit watchedNames) (d, true) ks = (d, true).
Proof. induction ks as [|k ks IH]; [done |]. simpl. apply IH. Qed.

Lemma gc_loop_free (watchedNames : gmap string Counter) (ks : list string) d :
  watchedNames !! "hasOwnProperty" = None → d !! "hasOwnProperty" = None →
  foldl (gc_visit watchedNames) (d, false) ks =
  (foldl (fun d k => if gc_own_test watchedNames k then d else delete k d) d ks,
   false).
Proof.
  intros Hw. revert d. induction ks as [|k ks IH]; intros d Hd; [done |].
  simpl foldl.
  assert (gc_visit watchedNames (d, false) k =
          (if gc_own_test watchedNames k then d else delete k d, false)) as ->.
  { unfold gc_visit. simpl. unfold hasOwnProperty at 1. rewrite Hd.
    rewrite gc_keeps_free by done.
    destruct (bool_decide (is_Some (d !! k))) eqn:Hk.
    - by destruct (gc_own_test watchedNames k).
    - apply bool_decide_eq_false in Hk.
      rewrite delete_id; [by destruct (gc_own_test watchedNames k) |].
      by apply eq_None_not_Some. }
  apply IH. destruct (gc_own_test watchedNames k); [done |].
  by apply lookup_delete_None; right.
Qed.

(** When [_d] or [_w] has an own property [hasOwnProperty] the first round
    of the loop raises, before anything is deleted. *)
Lemma garbageCollect_call_blocked s :
  gc_blocked s = true →
  garbageCollect_call s = (s, bool_decide (_d s ≠ ∅)).
Proof.
  intros Hb. unfold garbageCollect_call. cbv zeta.
  destruct (map_to_list (_d s)) as [|[k x] l] eqn:Hl.
  - apply map_to_list_empty_iff in Hl. simpl.
    rewrite bool_decide_eq_false_2 by (by intros ?). by destruct s.
  - assert (_d s !! k = Some x) as Hk.
    { apply elem_of_map_to_list. rewrite Hl. by left. }
    assert (_d s ≠ ∅) as Hne.
    { intros He. rewrite He in Hk. by rewrite lookup_empty in Hk. }
    rewrite bool_decide_eq_true_2 by done.
    rewrite fmap_cons. simpl foldl.
    assert (gc_visit (_w s) (_d s, false) k = (_d s, true)) as ->.
    { unfold gc_visit. simpl. unfold hasOwnProperty at 1.
      destruct (_d s !! "hasOwnProperty") as [y |] eqn:Hd; [done |].
      rewrite bool_decide_eq_true_2 by (by exists x).
      rewrite gc_keeps_raises; [done |].
      unfold gc_blocked in Hb. rewrite Hd in Hb.
      rewrite bool_decide_eq_false_2 in Hb by (by intros [? ?]).
      by apply bool_decide_eq_true in Hb. }
    rewrite gc_loop_raised. by destruct s.
Qed.

Lemma gc_blocked_false s :
  gc_blocked s = false ↔
  _d s !! "hasOwnProperty" = None ∧ _w s !! "hasOwnProperty" = None.
Proof.
  unfold gc_blocked. rewrite orb_false_iff, !bool_decide_eq_false.
  by rewrite <- !eq_None_not_Some.
Qed.

Lemma garbageCollect_call_free s :
  gc_blocked s = false →
  garbageCollect_call s =
  ({| _d := foldl (fun d k => if gc_own_test (_w s) k then d else delete k d)
                  (_d s) (map_to_list (_d s)).*1;
      _cbs := _cbs s; _w := _w s |}, false).
Proof.
  intros [Hd Hw]%gc_blocked_false. unfold garbageCollect_call. cbv zeta.
  by rewrite gc_loop_free.
Qed.

(** [garbageCollect] raises when it cannot call the inherited method and
    there is an entry to visit. *)
Lemma garbageCollect_raises_iff s :
  garbageCollect_raises s = gc_blocked s && bool_decide (_d s ≠ ∅).
Proof.
  unfold garbageCollect_raises. destruct (gc_blocked s) eqn:Hb.
  - by rewrite garbageCollect_call_blocked.
  - by rewrite garbageCollect_call_free.
Qed.

(** [garbageCollect] keeps the entries whose key passes the test and
    deletes the others, unless it raises. *)
Lemma garbageCollect_lookup s k :
  _d (garbageCollect s) !! k =
  if gc_blocked s || gc_own_test (_w s) k then _d s !! k else None.
Proof.
  unfold garbageCollect. destruct (gc_blocked s) eqn:Hb.
  - by rewrite garbageCollect_call_blocked.
  - rewrite garbageCollect_call_free by done. simpl. rewrite gc_loop_lookup.
    destruct (decide (k ∈ (map_to_list (_d s)).*1 ∧ gc_own_test (_w s) k = false))
      as [[_ ->] | Hno]; [done |].
    destruct (gc_own_test (_w s) k) eqn:Hk; [done |].
    destruct (_d s !! k) as [x |] eqn:Hx; [| done].
    destruct Hno. split; [| done]. apply elem_of_keys. by exists x.
Qed.

Lemma garbageCollect_frame s :
  _cbs (garbageCollect s) = _cbs s ∧ _w (garbageCollect s) = _w s.
Proof. done. Qed.

Lemma datastore_eq s s' :
  _d s = _d s' → _cbs s = _cbs s' → _w s = _w s' → s = s'.
Proof. destruct s, s'. simpl. by intros -> -> ->. Qed.

(** When every entry passes the test nothing is collected. *)
Lemma garbageCollect_idle s :
  (∀ k, is_Some (_d s !! k) → gc_keeps (_w s) k = Some true) →
  garbageCollect s = s.
Proof.
  intros Hall. apply datastore_eq; [| done..].
  apply map_eq. intros k. rewrite garbageCollect_lookup.
  destruct (gc_blocked s) eqn:Hb; [done |]. simpl.
  destruct (gc_own_test (_w s) k) eqn:Hk; [done |].
  destruct (_d s !! k) as [x |] eqn:Hx; [| done].
  apply gc_blocked_false in Hb as [_ Hw].
  specialize (Hall k (ltac:(by exists x))).
  rewrite gc_keeps_free, Hk in Hall by done. done.
Qed.

(** A key none of whose [watchNames] has a counter does not pass the test. *)
Lemma gc_own_test_unwatched (watchedNames : gmap string Counter) k :
  (∀ m, m ∈ watchNames k → watchedNames !! m = None) →
  gc_own_test watchedNames k = false.
Proof.
  intros Hnone. unfold gc_own_test. rewrite find_none; [done |].
  intros m Hm. rewrite (Hnone m Hm). apply bool_decide_eq_false_2.
  by intros [? ?].
Qed.

(** On rooted keys the test of [garbageCollect] asks whether some ancestor
    prefix has an own counter. *)
Lemma gc_own_test_rooted (watchedNames : gmap string Counter) k :
  rooted k = true →
  gc_own_test watchedNames k = true ↔
  ∃ p, ancestor_prefix p k ∧ is_Some (watchedNames !! p).
Proof.
  intros Hk. unfold gc_own_test.
  rewrite truthy_find by (intros x; by apply watchNames_rooted_nonempty).
  split.
  - intros (p & Hp & Hc%bool_decide_eq_true).
    exists p. split; [by apply watchNames_ancestor_prefix in Hp | done].
  - intros (p & Hp & Hc). exists p.
    split; [by apply watchNames_ancestor_prefix | by apply bool_decide_eq_true].
Qed.

End GarbageCollect.

(** ** The matching rule *)

(** On rooted names the test of a plain watcher is an existence test over
    the ancestor prefixes of the changed name. *)
Lemma fires_plain_rooted (S : list string) (cb : nat) (N : string) :
  rooted N = true →
  fires (PlainCb S cb) N = true ↔ ∃ p, ancestor_prefix p N ∧ p ∈ S.
Proof.
  intros HN. unfold fires.
  rewrite truthy_find by (intros x; by apply watchNames_rooted_nonempty).
  split.
  - intros (p & Hp & Hin%bool_decide_eq_true). exists p.
    split; [by apply watchNames_ancestor_prefix in Hp | done].
  - intros (p & Hp & Hin). exists p.
    split; [by apply watchNames_ancestor_prefix | by apply bool_decide_eq_true].
Qed.

(** On rooted names the test a closure makes is the matching rule of the
    specification. *)
Lemma fires_matches (c : Closure) (N : string) :
  rooted N = true → fires c N = true ↔ matches c N.
Proof.
  intros HN. destruct c as [S cb | S L cb].
  - by apply fires_plain_rooted.
  - simpl. unfold Js.has. apply bool_decide_eq_true.
Qed.

Lemma not_fires_matches (c : Closure) (N : string) :
  rooted N = true → fires c N = false ↔ ¬ matches c N.
Proof.
  intros HN. rewrite <- (fires_matches c N HN). by destruct (fires c N).
Qed.

(** ** Adding and deleting resources *)

Section AddDel.

Context {Obj : Type} (isEqual : Obj → Obj → bool).

Implicit Types (s : DataStore Obj) (w : World Obj) (r : Resource Obj)
  (f : nat * Closure) (n : string).

(** [add] of one item, when the item is skipped. *)
Lemma add_one_skipped w r' r :
  get (store w) (getName r') = Some (Own r) →
  isResourceEqual isEqual r' r = true →
  add isEqual w [r'] =
  ((watch w [getName r']).1, Some (length (handles w)), []).
Proof.
  unfold get. intros Hget Heq. unfold add, add_loop. simpl.
  unfold add_item. simpl. rewrite Hget, Heq. simpl.
  unfold watch. simpl. by destruct w.
Qed.

(** [add] of one item, when the item is stored. *)
Lemma add_one_stored w r2 :
  match get (store w) (getName r2) with
  | Some (Own r) => isResourceEqual isEqual r2 r = false
  | Some (Proto _) => False
  | None => True
  end →
  let s' := {| _d := <[getName r2 := r2]> (_d (store w));
               _cbs := _cbs (store w);
               _w := _w (store w) |} in
  add isEqual w [r2] =
  ((watch (with_store w s') [getName r2]).1, Some (length (handles w)),
   _publish s' (getName r2) (Some r2)).
Proof.
  unfold get. intros Hne. unfold add, add_loop. simpl.
  unfold add_item. simpl.
  destruct (prop_get _ _) as [[cur | p] |]; [| done | done].
  by rewrite Hne.
Qed.

(** [add] of one item whose name is a property of [Object.prototype] and no
    entry: a [TypeError], with nothing stored and nobody called. *)
Lemma add_one_raises w r2 p :
  get (store w) (getName r2) = Some (Proto p) →
  add isEqual w [r2] = (w, None, []).
Proof.
  unfold get. intros Hget. unfold add, add_loop. simpl.
  unfold add_item. simpl. rewrite Hget. simpl. by destruct w.
Qed.

(** C3.  When a resource [r] is stored under a name and [add] is called with
    a resource [r'] of that name whose snapshot deep-equals the snapshot of
    [r], no callback is called, the store (entries, callbacks and counters)
    is left as it was, and [get] still returns [r] itself. *)
Theorem add_equal_is_silent w r r' :
  get (store w) (getName r') = Some (Own r) →
  isResourceEqual isEqual r' r = true →
  (add isEqual w [r']).2 = [] ∧
  store (add isEqual w [r']).1.1 = store w ∧
  get (store (add isEqual w [r']).1.1) (getName r') = Some (Own r).
Proof.
  intros Hget Heq. by rewrite (add_one_skipped w r' r Hget Heq).
Qed.

(** C4, as amended.  When no entry is stored under [n], [del n] leaves the
    store as it was, and still calls every registered closure, so that the
    callbacks whose filter accepts [n] are told [(n, undefined)].  When every
    entry passes the test of [garbageCollect], collecting changes nothing. *)
Theorem del_absent_keeps_state s n :
  _d s !! n = None →
  (del s n).1 = s ∧
  (del s n).2 =
    flat_map (fun f => if fires f.2 n then [the_call s f n None] else [])
             (_cbs s) ∧
  ((∀ k, is_Some (_d s !! k) → gc_keeps (_w s) k = Some true) →
   garbageCollect s = s).
Proof.
  intros Hget.
  assert ((del s n).1 = s) as Hsame.
  { apply datastore_eq; [| done..]. simpl. by apply delete_id. }
  split; [done |]. split; [| apply garbageCollect_idle].
  change (del s n).2 with (_publish (del s n).1 n None). rewrite Hsame.
  unfold _publish. apply flat_map_ext. intros f. apply call_fires.
Qed.

(** X25.  On rooted names a replacement is announced as the specification
    says.  When a resource [r] is stored under the rooted name of [r2] and
    the snapshots differ, [add] stores [r2] and, before it returns, every
    registered closure that matches the name (a plain watcher of an
    ancestor prefix, an array watcher of the name itself) calls its callback
    exactly once, with the name and [r2]; the closures that do not match
    make no call, and nothing else is called. *)
Theorem add_replaces_and_notifies_once w r r2 :
  reachable isEqual w →
  rooted (getName r2) = true →
  get (store w) (getName r2) = Some (Own r) →
  isResourceEqual isEqual r2 r = false →
  let n := getName r2 in
  let w' := (add isEqual w [r2]).1.1 in
  let evs := (add isEqual w [r2]).2 in
  get (store w') n = Some (Own r2) ∧
  _cbs (store w') = _cbs (store w) ∧
  (∀ f, f ∈ _cbs (store w) → matches f.2 n →
        calls_of f.1 evs = [the_call (store w') f n (Some r2)]) ∧
  (∀ f, f ∈ _cbs (store w) → ¬ matches f.2 n → calls_of f.1 evs = []) ∧
  (∀ e, e ∈ evs →
        event_name e = n ∧ event_data e = Some r2 ∧
        ∃ f, f ∈ _cbs (store w) ∧ event_fn e = f.1 ∧ matches f.2 n).
Proof.
  intros HI%reachable_Inv Hroot Hget Hne n w' evs. subst n w' evs.
  pose proof (inv_addr_nodup w HI) as Hnd.
  rewrite add_one_stored by (by rewrite Hget). simpl.
  split; [unfold get; simpl; apply prop_get_own, lookup_insert_eq |].
  split; [done |].
  split; [| split].
  - intros f Hf Hm. rewrite publish_calls_of, call_fires by done.
    by rewrite (proj2 (fires_matches f.2 _ Hroot) Hm).
  - intros f Hf Hm. rewrite publish_calls_of, call_fires by done.
    by rewrite (proj2 (not_fires_matches f.2 _ Hroot) Hm).
  - intros e He. pose proof He as ((f & Hf & Hfn) & Hn & Hd)%publish_event.
    split; [done |]. split; [done |].
    unfold _publish in He. apply list_elem_of_In, in_flat_map in He.
    destruct He as (g & Hg%list_elem_of_In & He%list_elem_of_In).
    exists g. split; [done |].
    pose proof He as (Hfn' & _)%call_event. split; [done |].
    apply (fires_matches _ _ Hroot). rewrite call_fires in He.
    destruct (fires g.2 (getName r2)); [done | by apply elem_of_nil in He].
Qed.

End AddDel.

(** ** Watch handles *)

Section Watchers.

Context {Obj : Type} (isEqual : Obj → Obj → bool).

Implicit Types (s : DataStore Obj) (w : World Obj) (h : nat) (hd : WatchFunc)
  (f : nat * Closure) (n : string) (ops : list (Op Obj)).

(** X1.  On rooted names the plain watcher follows the matching rule of the
    specification: the callback is called with [(N, data)] when some
    ancestor prefix of [N] is watched, and is not called otherwise. *)
Theorem plain_watcher_rooted (S : list string) (fn cb : nat) (N : string) s
    (data : option (Resource Obj)) :
  rooted N = true →
  (call s (fn, PlainCb S cb) N data = [Call fn cb N data] ↔
   ∃ p, ancestor_prefix p N ∧ p ∈ S) ∧
  (call s (fn, PlainCb S cb) N data = [] ↔
   ¬ ∃ p, ancestor_prefix p N ∧ p ∈ S).
Proof.
  intros HN. rewrite call_fires, <- (fires_plain_rooted S cb N HN).
  change (fn, PlainCb S cb).2 with (PlainCb S cb).
  destruct (fires (PlainCb S cb) N); split; split; done.
Qed.

(** X5.  A watcher of a coarse name sees the changes of its descendants. *)
Lemma coarse_watch_sees_descendant (a rest : string) (fn cb : nat) s
    (data : option (Resource Obj)) :
  rooted a = true →
  call s (fn, PlainCb [a] cb) (a +:+ "/" +:+ rest) data =
  [Call fn cb (a +:+ "/" +:+ rest) data].
Proof.
  intros Ha. rewrite call_fires.
  change (fn, PlainCb [a] cb).2 with (PlainCb [a] cb).
  assert (fires (PlainCb [a] cb) (a +:+ "/" +:+ rest) = true) as ->; [| done].
  apply fires_plain_rooted; [by destruct a |].
  exists a. split; [right; by exists rest | by left].
Qed.

Lemma append_length (a b : string) :
  String.length (a +:+ b) = String.length a + String.length b.
Proof. induction a as [|c a IH]; [done |]. rewrite append_String. simpl. lia. Qed.

(** X6.  A watcher of a fine-grained name does not see a change of an ancestor. *)
Lemma fine_watch_misses_ancestor (a rest : string) (fn cb : nat) s
    (data : option (Resource Obj)) :
  rooted a = true →
  call s (fn, PlainCb [a +:+ "/" +:+ rest] cb) a data = [].
Proof.
  intros Ha. rewrite call_fires.
  change (fn, PlainCb [a +:+ "/" +:+ rest] cb).2
    with (PlainCb [a +:+ "/" +:+ rest] cb).
  destruct (fires (PlainCb [a +:+ "/" +:+ rest] cb) a) eqn:Hf; [| done].
  apply (fires_plain_rooted _ cb a Ha) in Hf
    as (p & Hp & ->%list_elem_of_singleton).
  destruct Hp as [Heq | [rest' Heq]];
    apply (f_equal String.length) in Heq;
    rewrite ?append_length in Heq; simpl in Heq; lia.
Qed.

(** What a registration does to the store. *)
Lemma register_effect w h hd (mk : WatchFunc → Closure) :
  handles w !! h = Some hd →
  let w' := register w h mk in
  _d (store w') = _d (store w) ∧
  _cbs (store w') = _cbs (store w) ++ [(fresh w, mk hd)] ∧
  _w (store w') = foldl incr (_w (store w)) (names hd).
Proof. intros Hh. unfold register. by rewrite Hh. Qed.



(** The counters of the names outside a handle's set are not touched by its
    [unsubscribe]. *)
Lemma unsubscribe_other_names w h hd n :
  handles w !! h = Some hd → n ∉ names hd →
  _w (store (unsubscribe w h)) !! n = _w (store w) !! n.
Proof.
  intros Hh Hout. unfold unsubscribe. rewrite Hh. simpl.
  enough (∀ todo st,
            _w (foldl (unsubscribe_cb (names hd)) st todo).1 !! n = _w st.1 !! n)
    as Hgen by apply (Hgen (cbs hd) (store w, cbs hd)).
  induction todo as [|fn todo IH]; intros st; [done |].
  simpl. rewrite IH. simpl. by apply foldl_decr_other.
Qed.

Lemma counts_ok_count s n :
  ordinary n → counts_ok s → count_of (_w s) n = refcount (_cbs s) n.
Proof.
  intros Hn Hok. unfold count_of. rewrite (Hok n Hn).
  destruct (decide (refcount (_cbs s) n = 0%Z)) as [-> | _]; done.
Qed.

(** X24.  [unsubscribe] on a handle removes from the store exactly the
    closures registered through that handle and leaves the counters of the
    other names alone; for each of the handle's names that [Object.prototype]
    does not define it takes from the count one per removed closure and
    deletes the counter when it reaches zero.  Afterwards no closure that
    was registered through the handle makes a call, whatever is done to the
    store, and the closures registered through other handles are called as
    they would have been. *)
Theorem unsubscribe_precise w h hd :
  reachable isEqual w → handles w !! h = Some hd →
  let w' := unsubscribe w h in
  _cbs (store w') = filter (fun f => f.1 ∉ cbs hd) (_cbs (store w)) ∧
  _d (store w') = _d (store w) ∧
  (∀ n, n ∉ names hd → _w (store w') !! n = _w (store w) !! n) ∧
  (∀ n, n ∈ names hd → ordinary n →
        _w (store w') !! n =
        if decide (count_of (_w (store w)) n
                   - Z.of_nat (length (cbs hd)) = 0)%Z
        then None
        else Some (Num (count_of (_w (store w)) n
                        - Z.of_nat (length (cbs hd))))) ∧
  (∀ ops e, e ∈ (run isEqual w' ops).2 → event_fn e ∉ cbs hd) ∧
  (∀ name data,
     _publish (store w') name data =
     filter (fun e => event_fn e ∉ cbs hd) (_publish (store w) name data)).
Proof.
  intros HI%reachable_Inv Hh w'.
  destruct (unsubscribe_effect w h hd HI Hh)
    as (Hok & Hd & Hcbs & Hhs & Hfresh & Hrc).
  fold w' in Hok, Hd, Hcbs, Hhs, Hfresh, Hrc.
  split; [done |]. split; [done |]. split; [| split; [| split]].
  - intros n Hout. by apply (unsubscribe_other_names w h hd).
  - intros n Hin Hn. rewrite (Hok n Hn), Hrc.
    rewrite (counts_ok_count (store w) n Hn (inv_counts w HI)).
    by destruct (decide (n ∈ names hd)).
  - intros ops e He. eapply (run_retired isEqual w' ops); [| | done].
    + rewrite Hcbs. by intros f [? _]%list_elem_of_filter.
    + rewrite Hfresh. intros x Hx. by eapply handle_cbs_below.
  - intros name data. by apply publish_without.
Qed.

(** X26.  In every world reached from a new store the counters of the
    names [Object.prototype] does not define are exact: the count of such a
    name is the number of registered closures that watch it, and a counter that
    is present is a positive number (it never goes negative, and a count of
    zero is deleted).  Registering a callback through a handle, as a plain
    or as an array watcher, adds exactly one to the count of each such name
    of the handle's set and leaves the others alone; [unsubscribe] takes
    from each of them exactly one per closure the handle had registered. *)
Theorem refcount_bookkeeping ops :
  let w := (run isEqual init ops).1 in
  (∀ n c, ordinary n → _w (store w) !! n = Some c →
          ∃ k, c = Num k ∧ (0 < k)%Z) ∧
  (∀ n, ordinary n → count_of (_w (store w)) n = refcount (_cbs (store w)) n) ∧
  (∀ h hd (cb : nat) n, handles w !! h = Some hd → ordinary n →
     count_of (_w (store (watchFunc w h cb))) n =
       (count_of (_w (store w)) n +
        if decide (n ∈ names hd) then 1 else 0)%Z ∧
     count_of (_w (store (arrayWatcher w h cb))) n =
       (count_of (_w (store w)) n +
        if decide (n ∈ names hd) then 1 else 0)%Z ∧
     count_of (_w (store (unsubscribe w h))) n =
       (count_of (_w (store w)) n -
        if decide (n ∈ names hd) then Z.of_nat (length (cbs hd)) else 0)%Z).
Proof.
  intros w.
  assert (Inv w) as HI by apply (Inv_run isEqual), Inv_init.
  split; [| split].
  - intros n c Hn. by apply counts_ok_positive, (inv_counts w HI).
  - intros n Hn. by apply counts_ok_count, (inv_counts w HI).
  - intros h hd cb n Hh Hn.
    assert (∀ mk : WatchFunc → Closure,
              (∀ hd, closure_names (mk hd) = names hd) →
              Inv (register w h mk) →
              count_of (_w (store (register w h mk))) n =
              (count_of (_w (store w)) n +
               if decide (n ∈ names hd) then 1 else 0)%Z) as Hreg.
    { intros mk Hmk HI'.
      rewrite (counts_ok_count _ n Hn (inv_counts _ HI')).
      rewrite (counts_ok_count _ n Hn (inv_counts w HI)).
      destruct (register_effect w h hd mk Hh) as (_ & -> & _).
      rewrite refcount_snoc. simpl. by rewrite Hmk. }
    split; [| split].
    + rewrite watchFunc_register. apply Hreg; [done |].
      rewrite <- watchFunc_register. by apply Inv_watchFunc.
    + rewrite arrayWatcher_register. apply Hreg; [done |].
      rewrite <- arrayWatcher_register. by apply Inv_arrayWatcher.
    + destruct (unsubscribe_effect w h hd HI Hh) as (Hok & _ & _ & _ & _ & Hrc).
      rewrite (counts_ok_count _ n Hn Hok), Hrc.
      by rewrite (counts_ok_count _ n Hn (inv_counts w HI)).
Qed.


(** X2.  On rooted keys none of whose ancestor prefixes is a property of
    [Object.prototype], [garbageCollect], when it does not raise, follows
    the retention rule of the specification: in a reachable world an entry
    survives exactly when some ancestor prefix of its key has a positive
    count, a surviving entry is unchanged, and no callback is called. *)
Theorem garbageCollect_rooted w (k : string) :
  reachable isEqual w → rooted k = true →
  (∀ p, ancestor_prefix p k → ordinary p) →
  garbageCollect_raises (store w) = false →
  (is_Some (get (garbageCollect (store w)) k) ↔
   is_Some (get (store w) k) ∧
   ∃ p c, ancestor_prefix p k ∧ _w (store w) !! p = Some (Num c) ∧ (0 < c)%Z) ∧
  (∀ r, get (garbageCollect (store w)) k = Some r → get (store w) k = Some r) ∧
  (step isEqual w OGarbageCollect).2 = [].
Proof.
  intros HI%reachable_Inv Hk Hord Hnr. unfold get.
  rewrite !prop_get_ordinary by (apply Hord; by left).
  rewrite garbageCollect_lookup.
  rewrite garbageCollect_raises_iff in Hnr.
  destruct (gc_blocked (store w)) eqn:Hb; simpl in *.
  - apply bool_decide_eq_false in Hnr.
    assert (_d (store w) = ∅) as -> by (by destruct (decide (_d (store w) = ∅))).
    rewrite lookup_empty. simpl. split; [| done]. split.
    + by intros [? ?].
    + by intros [[? ?] _].
  - pose proof (gc_own_test_rooted (_w (store w)) k Hk) as Hrule.
    destruct (gc_own_test (_w (store w)) k).
    + split; [| done]. split; [| by intros [? _]].
      intros Hsome. split; [done |].
      destruct (proj1 Hrule eq_refl) as (p & Hp & [c Hc]).
      destruct (counts_ok_positive (store w) p c (Hord p Hp)
                  (inv_counts w HI) Hc) as (z & -> & Hz).
      by exists p, z.
    + simpl. split; [| done]. split.
      * by intros [? ?].
      * intros [_ (p & c & Hp & Hc & _)].
        assert (false = true) as Habs; [| done].
        apply Hrule. exists p. split; [done |]. by exists (Num c).
Qed.

End Watchers.

(** ** Scenarios *)

(** C1.  The plain watcher misses names that are not rooted.  A watcher of
    the empty name is not called when the resource of that name is
    replaced or deleted, and a watcher of ["/a"] is not called when ["/a"]
    changes, although each name is an ancestor prefix of itself: [find]
    returns the empty string, which is falsy, and [watchNames] lists
    [""] and ["a"] for ["/a"].  An array watcher of the empty name, which
    tests membership with [has], is called. *)
Theorem plain_watcher_misses_unrooted_names :
  _cbs (store world_empty_name) = [(0, PlainCb [""] 7)] ∧
  ancestor_prefix "" "" ∧
  (step Z.eqb world_empty_name (OAdd [res "" 2])).2 = [] ∧
  (step Z.eqb world_empty_name (ODel "")).2 = [] ∧
  (step Z.eqb (arrayWatcher world_empty_name 1 9) (OAdd [res "" 2])).2
    = [CallArr 1 9 [Own (res "" 2)] "" (Some (res "" 2))] ∧
  _cbs (store world_leading_slash) = [(0, PlainCb ["/a"] 7)] ∧
  ancestor_prefix "/a" "/a" ∧
  watchNames "/a" = [""; "a"] ∧
  (step Z.eqb world_leading_slash (OAdd [res "/a" 2])).2 = [] ∧
  (step Z.eqb world_leading_slash (ODel "/a")).2 = [].
Proof.
  repeat split; try (by left); vm_compute; reflexivity.
Qed.

(** C2.  [garbageCollect] removes entries with unrooted keys although they
    are watched: the entry under the empty name is removed while the count
    of that name is one, and so is the entry under ["/a"] while the count of
    ["/a"] is one. *)
Theorem garbageCollect_removes_watched_unrooted_names :
  get (store world_empty_name) "" = Some (Own (res "" 1)) ∧
  _w (store world_empty_name) !! "" = Some (Num 1) ∧
  ancestor_prefix "" "" ∧
  get (garbageCollect (store world_empty_name)) "" = None ∧
  get (store world_leading_slash) "/a" = Some (Own (res "/a" 1)) ∧
  _w (store world_leading_slash) !! "/a" = Some (Num 1) ∧
  ancestor_prefix "/a" "/a" ∧
  get (garbageCollect (store world_leading_slash)) "/a" = None.
Proof.
  repeat split; try (by left); vm_compute; reflexivity.
Qed.

(** C5.  The array handed to an array watcher is not made of stored
    resources only.  After [watch("toString").arrayWatcher(cb)] on a new
    store, [del("toString")] calls [cb] with an array that holds the
    function [Object.prototype.toString], although nothing is stored:
    [get] reads [this._d[name]], which finds the inherited property, and
    the [reduce] of the array watcher keeps whatever is not [undefined].
    More generally, every name of [Object.prototype] in the list without an
    entry contributes the inherited property. *)
Theorem arrayWatcher_delivers_inherited_property :
  handles world_toString !! 0 = Some handle_toString ∧
  _cbs (store world_toString) = [(0, ArrayCb ["toString"] ["toString"] 7)] ∧
  _d (store world_toString) = ∅ ∧
  (step Z.eqb world_toString (ODel "toString")).2
    = [CallArr 0 7 [Proto "toString"] "toString" None] ∧
  (∀ (s : DataStore Z) (n : string),
     inherited n = true → _d s !! n = None → array_view s [n] = [Proto n]).
Proof.
  split; [reflexivity |]. split; [reflexivity |]. split; [reflexivity |].
  split; [vm_compute; reflexivity |].
  intros s n Hn Hd. unfold array_view, get, prop_get. simpl.
  by rewrite Hd, Hn.
Qed.

(** C6.  [unsubscribe] does not delete the counter of a name that
    [Object.prototype] defines.  After [h = watch("constructor"); h(cb)] the
    counter of ["constructor"] is a string (the inherited function is truthy
    and [+ 1] appends to its text); [h.unsubscribe()] removes the closure,
    turns the counter into [NaN], which is not [=== 0], and leaves it.  No
    closure watches the name any more, and yet an entry added under
    ["constructor/x"] survives [garbageCollect]. *)
Theorem unsubscribe_leaves_counter_on_inherited_name :
  handles world_constructor !! 0 = Some handle_constructor ∧
  _cbs (store world_constructor) = [(0, PlainCb ["constructor"] 7)] ∧
  _w (store world_constructor) !! "constructor" = Some Junk ∧
  _cbs (store (unsubscribe world_constructor 0)) = [] ∧
  refcount (_cbs (store (unsubscribe world_constructor 0))) "constructor" = 0%Z ∧
  _w (store (unsubscribe world_constructor 0)) !! "constructor" = Some NaN ∧
  _d (store (run Z.eqb (unsubscribe world_constructor 0)
               [OAdd [res "constructor/x" 1]; OGarbageCollect]).1)
    !! "constructor/x" = Some (res "constructor/x" 1).
Proof. repeat split; vm_compute; reflexivity. Qed.

(** C7.  A replacement is not announced to a plain watcher of an unrooted
    name.  With a resource stored under the empty name and a plain watcher
    of that name, adding a resource with another snapshot under the empty
    name stores it and calls nobody, although the watcher's set contains
    the name itself; the same happens with the name ["/a"]. *)
Theorem replacement_misses_unrooted_watcher :
  get (store world_empty_name) "" = Some (Own (res "" 1)) ∧
  isResourceEqual Z.eqb (res "" 2) (res "" 1) = false ∧
  _cbs (store world_empty_name) = [(0, PlainCb [""] 7)] ∧
  matches (PlainCb [""] 7) "" ∧
  get (store (add Z.eqb world_empty_name [res "" 2]).1.1) ""
    = Some (Own (res "" 2)) ∧
  (add Z.eqb world_empty_name [res "" 2]).2 = [] ∧
  get (store world_leading_slash) "/a" = Some (Own (res "/a" 1)) ∧
  isResourceEqual Z.eqb (res "/a" 2) (res "/a" 1) = false ∧
  _cbs (store world_leading_slash) = [(0, PlainCb ["/a"] 7)] ∧
  matches (PlainCb ["/a"] 7) "/a" ∧
  get (store (add Z.eqb world_leading_slash [res "/a" 2]).1.1) "/a"
    = Some (Own (res "/a" 2)) ∧
  (add Z.eqb world_leading_slash [res "/a" 2]).2 = [].
Proof.
  repeat split;
    try (eexists; split; [by left | by left]);
    vm_compute; reflexivity.
Qed.

(** C8.  The counter of a name that [Object.prototype] defines goes
    negative.  After [h = watch("constructor"); h(cb1); h(cb2)] the counter
    of ["constructor"] is a string, not [2]; [h.unsubscribe()] removes both
    closures: the first decrement turns the string into [NaN], the second
    reads [NaN || 0] and stores [-1], which is kept. *)
Theorem counter_goes_negative_on_inherited_name :
  let w1 := (run Z.eqb init
               [OWatch ["constructor"]; OWatchFunc 0 7; OWatchFunc 0 8]).1 in
  reachable Z.eqb (unsubscribe w1 0) ∧
  refcount (_cbs (store w1)) "constructor" = 2%Z ∧
  _w (store w1) !! "constructor" = Some Junk ∧
  _cbs (store (unsubscribe w1 0)) = [] ∧
  _w (store (unsubscribe w1 0)) !! "constructor" = Some (Num (-1)).
Proof.
  split.
  - by exists [OWatch ["constructor"]; OWatchFunc 0 7; OWatchFunc 0 8;
               OUnsubscribe 0].
  - repeat split; vm_compute; reflexivity.
Qed.

(** Two handles watch ["n"].  After the first unsubscribes the entry
    survives a collection; after the second unsubscribes too the next
    collection removes it, and no callback is called by either. *)
Example garbageCollect_two_handles :
  let ops1 := [OAdd [res "n" 1];
               OWatch ["n"]; OWatchFunc 1 7; OWatch ["n"]; OWatchFunc 2 8;
               OUnsubscribe 1; OGarbageCollect] in
  let ops2 := [OUnsubscribe 2; OGarbageCollect] in
  get (store (run Z.eqb init ops1).1) "n" = Some (Own (res "n" 1)) ∧
  (run Z.eqb init ops1).2 = [] ∧
  get (store (run Z.eqb init (ops1 ++ ops2)).1) "n" = None ∧
  (run Z.eqb init (ops1 ++ ops2)).2 = [].
Proof. vm_compute. done. Qed.

(** The scenario of the specification: a watcher of ["apps"] is called
    once when a release of an application is added. *)
Example watch_apps_sees_release :
  (run Z.eqb init
     [OAdd [res "apps/1" 1]; OWatch ["apps"]; OWatchFunc 1 7;
      OAdd [res "apps/1/releases/9" 2]]).2
  = [Call 0 7 "apps/1/releases/9" (Some (res "apps/1/releases/9" 2))].
Proof. vm_compute. done. Qed.

(** Watching ["a"] sees ["a/b/c"]; watching ["a/b/c"] does not see ["a"]. *)
Example hierarchical_match :
  (run Z.eqb init
     [OWatch ["a"]; OWatchFunc 0 7; OWatch ["a/b/c"]; OWatchFunc 1 8;
      OAdd [res "a/b/c" 1]; OAdd [res "a" 2]]).2
  = [Call 0 7 "a/b/c" (Some (res "a/b/c" 1));
     Call 1 8 "a/b/c" (Some (res "a/b/c" 1));
     Call 0 7 "a" (Some (res "a" 2))].
Proof. vm_compute. done. Qed.

(** The rule for rooted names, at a watcher of ["apps"] and a release. *)
Lemma plain_watcher_rooted_witness :
  rooted "apps/1/releases/9" = true ∧
  call (store world_watching_n) (0, PlainCb ["apps"] 7) "apps/1/releases/9" None
  = [Call 0 7 "apps/1/releases/9" None].
Proof.
  split; [reflexivity |].
  apply (plain_watcher_rooted (Obj:=Z)); [reflexivity |].
  exists "apps". split; [right; by exists "1/releases/9" | by left].
Defined.

Lemma ancestor_prefix_a_c (p : string) :
  ancestor_prefix p "a/c" → p = "a/c" ∨ p = "a".
Proof.
  intros [-> | [rest Heq]]; [by left | right].
  destruct p as [|c1 p]; [discriminate Heq |].
  rewrite append_String in Heq. injection Heq as <- Heq.
  destruct p as [|c2 p]; [done |].
  rewrite append_String in Heq. injection Heq as <- Heq.
  destruct p as [|c3 p]; [discriminate Heq |].
  rewrite append_String in Heq. injection Heq as <- Heq.
  destruct p as [|c4 p]; [discriminate Heq |].
  rewrite append_String in Heq. discriminate Heq.
Qed.

(** The retention rule, at the entry ["a/c"] of [world_two_handles]. *)
Lemma garbageCollect_rooted_witness :
  reachable Z.eqb world_two_handles ∧ rooted "a/c" = true ∧
  (∀ p, ancestor_prefix p "a/c" → ordinary p) ∧
  garbageCollect_raises (store world_two_handles) = false ∧
  (step Z.eqb world_two_handles OGarbageCollect).2 = [].
Proof.
  assert (reachable Z.eqb world_two_handles) as Hr by (by eexists).
  assert (∀ p, ancestor_prefix p "a/c" → ordinary p) as Hord.
  { intros p [-> | ->]%ancestor_prefix_a_c; reflexivity. }
  split; [done |]. split; [reflexivity |]. split; [done |].
  split; [reflexivity |].
  apply (garbageCollect_rooted Z.eqb world_two_handles "a/c" Hr eq_refl Hord).
  reflexivity.
Defined.

(** A second object with the same contents is added under ["n"]. *)
Lemma add_equal_is_silent_witness :
  get (store world_boxed_n) "n" = Some (Own (boxed "n" 1 5)) ∧
  isResourceEqual same_contents (boxed "n" 2 5) (boxed "n" 1 5) = true ∧
  (add same_contents world_boxed_n [boxed "n" 2 5]).2 = [] ∧
  store (add same_contents world_boxed_n [boxed "n" 2 5]).1.1
    = store world_boxed_n ∧
  get (store (add same_contents world_boxed_n [boxed "n" 2 5]).1.1) "n"
    = Some (Own (boxed "n" 1 5)).
Proof.
  split; [reflexivity |]. split; [reflexivity |].
  apply (add_equal_is_silent same_contents world_boxed_n
           (boxed "n" 1 5) (boxed "n" 2 5)); reflexivity.
Defined.

(** C4, as stated, fails: [del] of a name without an entry still notifies
    the watchers of that name. *)
Lemma del_absent_still_notifies :
  ¬ (∀ (w : World Z) (n : string),
       reachable Z.eqb w → get (store w) n = None →
       (del (store w) n).2 = []).
Proof.
  intros Hclaim.
  assert (reachable Z.eqb world_watching_n) as Hr by (by eexists).
  specialize (Hclaim world_watching_n "n" Hr eq_refl).
  vm_compute in Hclaim. discriminate Hclaim.
Qed.

(** [del "n"] on a store that watches ["n"] and holds nothing. *)
Lemma del_absent_keeps_state_witness :
  _d (store world_watching_n) !! "n" = None ∧
  (del (store world_watching_n) "n").1 = store world_watching_n ∧
  (del (store world_watching_n) "n").2 = [Call 0 7 "n" None].
Proof.
  split; [reflexivity |].
  destruct (del_absent_keeps_state (store world_watching_n) "n" eq_refl)
    as (Hstate & Hevs & _).
  split; [exact Hstate |]. rewrite Hevs. reflexivity.
Defined.


(** Unsubscribing the handle for ["a"; "b"] leaves the watcher of ["a"]. *)
Lemma unsubscribe_precise_witness :
  reachable Z.eqb world_two_handles ∧
  handles world_two_handles !! 1 = Some handle_a_b ∧
  _cbs (store (unsubscribe world_two_handles 1)) = [(0, PlainCb ["a"] 7)].
Proof.
  assert (reachable Z.eqb world_two_handles) as Hr by (by eexists).
  split; [exact Hr |]. split; [reflexivity |].
  destruct (unsubscribe_precise Z.eqb world_two_handles 1 handle_a_b Hr eq_refl)
    as (Hcbs & _).
  rewrite Hcbs. reflexivity.
Defined.

(** An object with other contents replaces the one stored under ["n"]. *)
Lemma add_replaces_and_notifies_once_witness :
  reachable same_contents world_boxed_n ∧
  rooted "n" = true ∧
  get (store world_boxed_n) "n" = Some (Own (boxed "n" 1 5)) ∧
  isResourceEqual same_contents (boxed "n" 2 6) (boxed "n" 1 5) = false ∧
  get (store (add same_contents world_boxed_n [boxed "n" 2 6]).1.1) "n"
    = Some (Own (boxed "n" 2 6)).
Proof.
  assert (reachable same_contents world_boxed_n) as Hr by (by eexists).
  split; [exact Hr |]. split; [reflexivity |].
  split; [reflexivity |]. split; [reflexivity |].
  apply (add_replaces_and_notifies_once same_contents world_boxed_n
           (boxed "n" 1 5) (boxed "n" 2 6) Hr); reflexivity.
Defined.

(** ** More on [add], [get] and [del] *)

Section Entries.

Context {Obj : Type} (isEqual : Obj → Obj → bool).

Implicit Types (s : DataStore Obj) (w : World Obj) (r item : Resource Obj)
  (items : list (Resource Obj)) (n : string)
  (names : list string) (evs : list (Event Obj)).

Lemma foldl_step {A B} (f : A → B → A) (a : A) (x : B) (l : list B) :
  foldl f a (x :: l) = foldl f (f a x) l.
Proof. reflexivity. Qed.

(** The three ways one round of the loop of [add] can go: the item is
    skipped, the item is stored and published, or a [TypeError] is
    raised. *)
Lemma add_item_cases (st : AddLoop Obj) item :
  loop_raised st = false →
  (∃ cur, _d (loop_store st) !! getName item = Some cur ∧
          isResourceEqual isEqual item cur = true ∧
          add_item isEqual st item =
          mkAddLoop (loop_store st) (loop_names st ++ [getName item])
                    (loop_events st) false) ∨
  ((_d (loop_store st) !! getName item = None ∧ ordinary (getName item) ∨
    ∃ cur, _d (loop_store st) !! getName item = Some cur ∧
           isResourceEqual isEqual item cur = false) ∧
   add_item isEqual st item =
   mkAddLoop (stored (loop_store st) item) (loop_names st ++ [getName item])
             (loop_events st ++
              _publish (stored (loop_store st) item) (getName item) (Some item))
             false) ∨
  (_d (loop_store st) !! getName item = None ∧
   inherited (getName item) = true ∧
   add_item isEqual st item =
   mkAddLoop (loop_store st) (loop_names st ++ [getName item])
             (loop_events st) true).
Proof.
  intros Hnr. unfold add_item. rewrite Hnr. unfold prop_get.
  destruct (_d (loop_store st) !! getName item) as [cur |] eqn:Hcur.
  - destruct (isResourceEqual isEqual item cur) eqn:Heq.
    + left. by exists cur.
    + right. left. split; [| done]. right. by exists cur.
  - destruct (inherited (getName item)) eqn:Hinh.
    + right. right. done.
    + right. left. split; [| done]. by left.
Qed.

(** After a [TypeError] the loop is over. *)
Lemma add_item_raised (st : AddLoop Obj) item :
  loop_raised st = true → add_item isEqual st item = st.
Proof. intros Hr. unfold add_item. by rewrite Hr. Qed.

Lemma add_items_raised items (st : AddLoop Obj) :
  loop_raised st = true → foldl (add_item isEqual) st items = st.
Proof.
  intros Hr. induction items as [|item items IH]; [done |].
  by rewrite foldl_step, add_item_raised.
Qed.

Lemma add_item_not_raised (st : AddLoop Obj) item :
  loop_raised (add_item isEqual st item) = false → loop_raised st = false.
Proof.
  intros Hnr. destruct (loop_raised st) eqn:Hr; [| done].
  by rewrite add_item_raised, Hr in Hnr.
Qed.

Lemma add_items_not_raised items (st : AddLoop Obj) :
  loop_raised (foldl (add_item isEqual) st items) = false →
  loop_raised st = false.
Proof.
  intros Hnr. destruct (loop_raised st) eqn:Hr; [| done].
  by rewrite add_items_raised, Hr in Hnr.
Qed.

(** The loop of [add] only appends to the array of names and to the calls
    made so far. *)
Lemma add_item_acc (st : AddLoop Obj) item :
  loop_raised st = false →
  let st' := add_item isEqual (mkAddLoop (loop_store st) [] [] false) item in
  add_item isEqual st item =
  mkAddLoop (loop_store st') (loop_names st ++ loop_names st')
            (loop_events st ++ loop_events st') (loop_raised st').
Proof.
  intros Hnr. unfold add_item. rewrite Hnr. simpl.
  destruct (prop_get _ _) as [[cur | p] |]; simpl; rewrite ?app_nil_r; try done.
  destruct (isResourceEqual isEqual item cur); simpl; by rewrite ?app_nil_r.
Qed.

Lemma add_items_acc items (st : AddLoop Obj) :
  loop_raised st = false →
  let st' := add_loop isEqual (loop_store st) items in
  foldl (add_item isEqual) st items =
  mkAddLoop (loop_store st') (loop_names st ++ loop_names st')
            (loop_events st ++ loop_events st') (loop_raised st').
Proof.
  unfold add_loop. revert st.
  induction items as [|item items IH]; intros st Hnr.
  - simpl. rewrite !app_nil_r. destruct st. simpl in *. by subst.
  - rewrite !foldl_step. rewrite (add_item_acc st item Hnr). cbv zeta.
    destruct (add_item isEqual (mkAddLoop (loop_store st) [] [] false) item)
      as [s1 n1 e1 r1]. simpl. destruct r1.
    + by rewrite !add_items_raised.
    + rewrite (IH (mkAddLoop s1 (loop_names st ++ n1) (loop_events st ++ e1)
                             false)) by done.
      rewrite (IH (mkAddLoop s1 n1 e1 false)) by done. simpl.
      by rewrite !app_assoc.
Qed.

Lemma add_items_names items (st : AddLoop Obj) :
  loop_raised (foldl (add_item isEqual) st items) = false →
  loop_names (foldl (add_item isEqual) st items)
  = loop_names st ++ (getName <$> items).
Proof.
  revert st. induction items as [|item items IH]; intros st Hnr.
  - simpl. by rewrite app_nil_r.
  - rewrite foldl_step in *. rewrite IH by done.
    pose proof (add_items_not_raised _ _ Hnr) as Hnr1.
    pose proof (add_item_not_raised _ _ Hnr1) as Hnr0.
    destruct (add_item_cases st item Hnr0)
      as [(cur & _ & _ & ->) | [(_ & ->) | (_ & _ & ->)]];
      simpl loop_names; by rewrite fmap_cons, <- app_assoc.
Qed.

(** One round of the loop touches the entry of the item's name only. *)
Lemma add_item_other (st : AddLoop Obj) item n :
  n ≠ getName item →
  _d (loop_store (add_item isEqual st item)) !! n = _d (loop_store st) !! n.
Proof.
  intros Hne. destruct (loop_raised st) eqn:Hr.
  - by rewrite add_item_raised.
  - destruct (add_item_cases st item Hr)
      as [(cur & _ & _ & ->) | [(_ & ->) | (_ & _ & ->)]]; simpl; try done.
    by apply lookup_insert_ne.
Qed.

Lemma add_item_keeps (st : AddLoop Obj) item n :
  is_Some (_d (loop_store st) !! n) →
  is_Some (_d (loop_store (add_item isEqual st item)) !! n).
Proof.
  intros Hn. destruct (loop_raised st) eqn:Hr.
  - by rewrite add_item_raised.
  - destruct (add_item_cases st item Hr)
      as [(cur & _ & _ & ->) | [(_ & ->) | (_ & _ & ->)]]; simpl; try done.
    destruct (decide (n = getName item)) as [-> | Hne].
    + by rewrite lookup_insert_eq.
    + by rewrite lookup_insert_ne.
Qed.

Lemma add_items_frame_entries items (st : AddLoop Obj) n :
  n ∉ (getName <$> items) →
  _d (loop_store (foldl (add_item isEqual) st items)) !! n
  = _d (loop_store st) !! n.
Proof.
  revert st. induction items as [|item items IH]; intros st Hn; [done |].
  rewrite fmap_cons in Hn. apply not_elem_of_cons in Hn as [Hne Hn].
  rewrite foldl_step, IH by done. by apply add_item_other.
Qed.

Lemma add_items_keep_present items (st : AddLoop Obj) n :
  is_Some (_d (loop_store st) !! n) →
  is_Some (_d (loop_store (foldl (add_item isEqual) st items)) !! n).
Proof.
  revert st. induction items as [|item items IH]; intros st Hn; [done |].
  rewrite foldl_step. by apply IH, add_item_keeps.
Qed.

Lemma add_items_present items (st : AddLoop Obj) item :
  loop_raised (foldl (add_item isEqual) st items) = false →
  item ∈ items →
  is_Some (_d (loop_store (foldl (add_item isEqual) st items))
             !! getName item).
Proof.
  revert st. induction items as [|x items IH];
    intros st Hnr Hin; [by apply elem_of_nil in Hin |].
  rewrite foldl_step in *.
  apply elem_of_cons in Hin as [-> | Hin]; [| by apply IH].
  apply add_items_keep_present.
  pose proof (add_items_not_raised _ _ Hnr) as Hnr1.
  pose proof (add_item_not_raised _ _ Hnr1) as Hnr0.
  destruct (add_item_cases st x Hnr0)
    as [(cur & Hcur & _ & Heq) | [(_ & Heq) | (_ & _ & Heq)]];
    rewrite Heq in *; simpl in *; [by exists cur | | done].
  by rewrite lookup_insert_eq.
Qed.

Lemma add_items_distinct items (st : AddLoop Obj) item :
  loop_raised (foldl (add_item isEqual) st items) = false →
  NoDup (getName <$> items) → item ∈ items →
  let d' := _d (loop_store (foldl (add_item isEqual) st items)) in
  d' !! getName item = Some item ∨
  ∃ cur, _d (loop_store st) !! getName item = Some cur ∧
         isResourceEqual isEqual item cur = true ∧
         d' !! getName item = Some cur.
Proof.
  revert st. induction items as [|x items IH];
    intros st Hnr Hnd Hin; [by apply elem_of_nil in Hin |].
  rewrite fmap_cons in Hnd. apply NoDup_cons in Hnd as [Hx Hnd].
  cbv zeta. rewrite foldl_step in *.
  pose proof (add_items_not_raised _ _ Hnr) as Hnr1.
  pose proof (add_item_not_raised _ _ Hnr1) as Hnr0.
  apply elem_of_cons in Hin as [-> | Hin].
  - rewrite add_items_frame_entries by done.
    destruct (add_item_cases st x Hnr0)
      as [(cur & Hcur & Heq & ->) | [(_ & ->) | (_ & _ & Hst)]]; simpl.
    + right. by exists cur.
    + left. apply lookup_insert_eq.
    + by rewrite Hst in Hnr1.
  - destruct (IH _ Hnr Hnd Hin) as [Hnew | (cur & Hcur & Heq & Hfin)];
      [by left | right].
    exists cur. split; [| done].
    rewrite add_item_other in Hcur; [done |].
    intros Heq'. apply Hx. rewrite <- Heq'. by apply list_elem_of_fmap_2.
Qed.

(** [add] raises exactly when [get] finds an inherited property under the
    name of one of the items. *)
Lemma add_items_raised_iff items (st : AddLoop Obj) :
  loop_raised st = false →
  loop_raised (foldl (add_item isEqual) st items) = true ↔
  ∃ item, item ∈ items ∧
          get (loop_store st) (getName item) = Some (Proto (getName item)).
Proof.
  revert st. induction items as [|x items IH]; intros st Hnr.
  - simpl. rewrite Hnr. split; [done |]. by intros (? & ?%elem_of_nil & _).
  - rewrite foldl_step.
    assert (∀ n, get (loop_store st) n = Some (Proto n) ↔
                 _d (loop_store st) !! n = None ∧ inherited n = true) as Hproto.
    { intros n. unfold get, prop_get.
      destruct (_d (loop_store st) !! n); [split; [done | by intros [? _]] |].
      destruct (inherited n); split; try done. by intros [_ ?]. }
    destruct (add_item_cases st x Hnr)
      as [(cur & Hcur & Heq & Hst) | [(Hwhy & Hst) | (Hnone & Hinh & Hst)]].
    + rewrite Hst, IH by done. simpl. split.
      * intros (item & Hin & Hp). exists item. split; [by right | done].
      * intros (item & [-> | Hin]%elem_of_cons & Hp).
        -- apply Hproto in Hp as [Hp _]. by rewrite Hp in Hcur.
        -- by exists item.
    + rewrite Hst, IH by done. simpl. split.
      * intros (item & Hin & Hp). exists item. split; [by right |].
        unfold get, prop_get in Hp. simpl in Hp. apply Hproto.
        destruct (decide (getName item = getName x)) as [Hsame | Hne].
        -- by rewrite Hsame, lookup_insert_eq in Hp.
        -- rewrite lookup_insert_ne in Hp by done.
           destruct (_d (loop_store st) !! getName item); [done |].
           by destruct (inherited (getName item)).
      * intros (item & [-> | Hin]%elem_of_cons & Hp).
        -- apply Hproto in Hp as [Hp Hinh].
           destruct Hwhy as [[_ Hord] | (cur & Hcur & _)].
           ++ unfold ordinary in Hord. by rewrite Hord in Hinh.
           ++ by rewrite Hp in Hcur.
        -- exists item. split; [done |]. apply Hproto in Hp as [Hp Hinh].
           unfold get, prop_get. simpl.
           destruct (decide (getName item = getName x)) as [Hsame | Hne].
           ++ exfalso. rewrite Hsame in Hp, Hinh.
              destruct Hwhy as [[_ Hord] | (cur & Hcur & _)].
              ** unfold ordinary in Hord. by rewrite Hord in Hinh.
              ** by rewrite Hp in Hcur.
           ++ by rewrite lookup_insert_ne, Hp, Hinh.
    + rewrite Hst, add_items_raised by done. simpl. split; [| done].
      intros _. exists x. split; [by left |]. by apply Hproto.
Qed.

(** Running the loop again on its own result stores nothing and calls
    nobody: every item met is skipped, up to the item that raises. *)
Lemma add_items_repeat items (st st0 : AddLoop Obj) :
  (∀ o, isEqual o o = true) → NoDup (getName <$> items) →
  loop_raised st = false → loop_raised st0 = false →
  loop_store st0 = loop_store (foldl (add_item isEqual) st items) →
  loop_store (foldl (add_item isEqual) st0 items) = loop_store st0 ∧
  loop_events (foldl (add_item isEqual) st0 items) = loop_events st0.
Proof.
  intros Hrefl. revert st st0.
  induction items as [|x items IH]; intros st st0 Hnd Hnr Hnr0 Hs0; [done |].
  rewrite fmap_cons in Hnd. apply NoDup_cons in Hnd as [Hx Hnd].
  rewrite foldl_step in Hs0. rewrite foldl_step.
  assert (_d (loop_store st0) !! getName x
          = _d (loop_store (add_item isEqual st x)) !! getName x) as Hsame.
  { rewrite Hs0. by apply add_items_frame_entries. }
  destruct (add_item_cases st x Hnr)
    as [(cur & Hcur & Heq & Hst) | [(Hwhy & Hst) | (Hnone & Hinh & Hst)]];
    rewrite Hst in Hsame, Hs0; simpl in Hsame.
  - destruct (add_item_cases st0 x Hnr0)
      as [(cur' & Hcur' & Heq' & Hst0) | [(Hwhy' & Hst0) | (Hnone' & _ & Hst0)]].
    + rewrite Hst0.
      destruct (IH (mkAddLoop (loop_store st) (loop_names st ++ [getName x])
                              (loop_events st) false)
                   (mkAddLoop (loop_store st0) (loop_names st0 ++ [getName x])
                              (loop_events st0) false)) as [-> ->]; done.
    + exfalso. rewrite Hsame, Hcur in Hwhy'.
      destruct Hwhy' as [[? _] | (c & [= <-] & Hc)]; [done |].
      by rewrite Heq in Hc.
    + by rewrite Hsame, Hcur in Hnone'.
  - rewrite lookup_insert_eq in Hsame.
    destruct (add_item_cases st0 x Hnr0)
      as [(cur' & Hcur' & Heq' & Hst0) | [(Hwhy' & Hst0) | (Hnone' & _ & Hst0)]].
    + rewrite Hst0.
      destruct (IH (mkAddLoop (stored (loop_store st) x)
                              (loop_names st ++ [getName x])
                              (loop_events st ++
                               _publish (stored (loop_store st) x) (getName x)
                                        (Some x)) false)
                   (mkAddLoop (loop_store st0) (loop_names st0 ++ [getName x])
                              (loop_events st0) false)) as [-> ->]; done.
    + exfalso. rewrite Hsame in Hwhy'.
      destruct Hwhy' as [[? _] | (c & [= <-] & Hc)]; [done |].
      unfold isResourceEqual in Hc. by rewrite Hrefl in Hc.
    + by rewrite Hsame in Hnone'.
  - rewrite add_items_raised in Hs0 by done. simpl in Hs0.
    destruct (add_item_cases st0 x Hnr0)
      as [(cur' & Hcur' & _ & Hst0) | [(Hwhy' & Hst0) | (_ & _ & Hst0)]].
    + by rewrite Hsame, Hnone in Hcur'.
    + exfalso. rewrite Hsame, Hnone in Hwhy'.
      destruct Hwhy' as [[_ Hord] | (c & ? & _)]; [| done].
      unfold ordinary in Hord. by rewrite Hord in Hinh.
    + by rewrite Hst0, add_items_raised.
Qed.

Lemma add_store w items :
  store (add isEqual w items).1.1
  = loop_store (add_loop isEqual (store w) items).
Proof. unfold add. by destruct (loop_raised _). Qed.

Lemma add_events w items :
  (add isEqual w items).2 = loop_events (add_loop isEqual (store w) items).
Proof. unfold add. by destruct (loop_raised _). Qed.

(** X9.  [add(...items)] raises a [TypeError] exactly when the name of one
    of the items is a property of [Object.prototype] under which nothing is
    stored ([get] returns the inherited property, which has no
    [toObject]); then no handle is created.  Otherwise it returns a new
    handle made for the names of the items, in argument order, every item's
    name has an entry afterwards, and when the names of the items are
    pairwise distinct, the entry under an item's name is the item itself,
    or the resource that was stored before when the item deep-equals it.
    In both cases names that no item carries keep their entry. *)
Theorem add_stores_items w items :
  let w' := (add isEqual w items).1.1 in
  ((add isEqual w items).1.2 = None ↔
   ∃ item, item ∈ items ∧
           get (store w) (getName item) = Some (Proto (getName item))) ∧
  ((add isEqual w items).1.2 = None → handles w' = handles w) ∧
  (∀ n, n ∉ (getName <$> items) → _d (store w') !! n = _d (store w) !! n) ∧
  ((add isEqual w items).1.2 ≠ None →
   (add isEqual w items).1.2 = Some (length (handles w)) ∧
   handles w' = handles w ++
     [{| namesArr := getName <$> items;
         names := Js.set_of (getName <$> items);
         cbs := [] |}] ∧
   (∀ item, item ∈ items → is_Some (_d (store w') !! getName item)) ∧
   (NoDup (getName <$> items) → ∀ item, item ∈ items →
      get (store w') (getName item) = Some (Own item) ∨
      ∃ cur, get (store w) (getName item) = Some (Own cur) ∧
             isResourceEqual isEqual item cur = true ∧
             get (store w') (getName item) = Some (Own cur))).
Proof.
  unfold add, add_loop.
  set (st0 := mkAddLoop (store w) [] [] false).
  pose proof (add_items_raised_iff items st0 eq_refl) as Hiff.
  pose proof (add_items_names items st0) as Hnames.
  pose proof (add_items_frame_entries items st0) as Hframe.
  pose proof (add_items_present items st0) as Hpresent.
  pose proof (add_items_distinct items st0) as Hdistinct.
  destruct (loop_raised (foldl (add_item isEqual) st0 items)) eqn:Hr; simpl.
  - split; [split; [intros _; by apply Hiff | done] |].
    split; [done |]. split; [done |]. done.
  - split.
    { split; [done |]. intros Hex%Hiff. done. }
    split; [done |]. split; [done |]. intros _.
    rewrite Hnames by done. simpl.
    split; [done |]. split; [done |].
    split; [intros item Hitem; by apply Hpresent |].
    intros Hnd item Hitem. unfold get. simpl.
    destruct (Hdistinct item eq_refl Hnd Hitem)
      as [Hnew | (cur & Hcur & Heq & Hfin)].
    + left. by apply prop_get_own.
    + right. exists cur. split; [by apply prop_get_own |].
      split; [done | by apply prop_get_own].
Qed.

(** X10.  [add] of a list is [add] of its first part followed, when that
    returns, by [add] of the rest: the store is the same and the calls are
    the calls of the first followed by the calls of the second.  When the
    first part raises, the [add] of the whole list raises at the same item,
    with the same store and the same calls. *)
Theorem add_app w (xs ys : list (Resource Obj)) :
  let a := add isEqual w (xs ++ ys) in
  let a1 := add isEqual w xs in
  let a2 := add isEqual a1.1.1 ys in
  match a1.1.2 with
  | Some _ => store a.1.1 = store a2.1.1 ∧ a.2 = a1.2 ++ a2.2
  | None => store a.1.1 = store a1.1.1 ∧ a.2 = a1.2 ∧ a.1.2 = None
  end.
Proof.
  unfold add, add_loop. rewrite foldl_app.
  set (st1 := foldl (add_item isEqual) (mkAddLoop (store w) [] [] false) xs).
  destruct (loop_raised st1) eqn:Hr1; simpl.
  - rewrite add_items_raised by done. by rewrite Hr1.
  - rewrite (add_items_acc ys st1 Hr1). cbv zeta. simpl.
    unfold add_loop.
    by destruct (loop_raised (foldl (add_item isEqual)
                   (mkAddLoop (loop_store st1) [] [] false) ys)).
Qed.

(** X11.  When deep equality is reflexive and the items carry pairwise
    distinct names, repeating an [add] calls no callback and leaves the
    store as the first [add] left it. *)
Theorem add_again_is_silent w items :
  (∀ o, isEqual o o = true) → NoDup (getName <$> items) →
  let w1 := (add isEqual w items).1.1 in
  (add isEqual w1 items).2 = [] ∧
  store (add isEqual w1 items).1.1 = store w1.
Proof.
  intros Hrefl Hnd. cbv zeta.
  pose proof (add_store w items) as Hs1.
  destruct (add_items_repeat items
              (mkAddLoop (store w) [] [] false)
              (mkAddLoop (store (add isEqual w items).1.1) [] [] false)
              Hrefl Hnd eq_refl eq_refl Hs1) as [Hstore Hevs].
  rewrite add_store, add_events. by split.
Qed.

Lemma add_items_keyed items (st : AddLoop Obj) :
  keyed (loop_store st) →
  keyed (loop_store (foldl (add_item isEqual) st items)).
Proof.
  revert st. induction items as [|item items IH]; intros st Hk; [done |].
  rewrite foldl_step. apply IH.
  destruct (loop_raised st) eqn:Hr; [by rewrite add_item_raised |].
  destruct (add_item_cases st item Hr)
    as [(cur & _ & _ & ->) | [(_ & ->) | (_ & _ & ->)]]; simpl; try done.
  intros k r. simpl. destruct (decide (k = getName item)) as [-> | Hne].
  - rewrite lookup_insert_eq. by intros [= <-].
  - rewrite lookup_insert_ne by done. apply Hk.
Qed.

Lemma add_items_ordinary items (st : AddLoop Obj) :
  entries_ordinary (loop_store st) →
  entries_ordinary (loop_store (foldl (add_item isEqual) st items)).
Proof.
  revert st. induction items as [|item items IH]; intros st Hk; [done |].
  rewrite foldl_step. apply IH.
  destruct (loop_raised st) eqn:Hr; [by rewrite add_item_raised |].
  destruct (add_item_cases st item Hr)
    as [(cur & _ & _ & ->) | [(Hwhy & ->) | (_ & _ & ->)]]; simpl; try done.
  intros k. simpl. destruct (decide (k = getName item)) as [-> | Hne].
  - intros _. destruct Hwhy as [[_ Hord] | (cur & Hcur & _)]; [done |].
    apply Hk. by exists cur.
  - rewrite lookup_insert_ne by done. apply Hk.
Qed.

(** The loop of [unsubscribe] leaves the entries alone. *)
Lemma unsubscribe_entries w (h : nat) :
  _d (store (unsubscribe w h)) = _d (store w).
Proof.
  unfold unsubscribe. destruct (handles w !! h) as [hd |]; [| done]. simpl.
  enough (∀ (todo : list nat) (st : DataStore Obj * list nat),
            _d (foldl (unsubscribe_cb (names hd)) st todo).1 = _d st.1)
    as Hgen by apply (Hgen (cbs hd) (store w, cbs hd)).
  induction todo as [|fn todo IH]; intros st; [done |].
  rewrite foldl_step, IH. done.
Qed.

(** [garbageCollect] only removes entries. *)
Lemma garbageCollect_subseteq s k r :
  _d (garbageCollect s) !! k = Some r → _d s !! k = Some r.
Proof.
  rewrite garbageCollect_lookup. by destruct (_ || _).
Qed.

Lemma keyed_step w (o : Op Obj) :
  keyed (store w) → keyed (store (step isEqual w o).1).
Proof.
  intros Hk. destruct o as [items | name | L | h cb | h cb | h |]; simpl.
  - pose proof (add_store w items) as Hs.
    destruct (add isEqual w items) as [[w' h'] evs]. simpl in *.
    rewrite Hs. by apply add_items_keyed.
  - intros k r. simpl. intros [_ Hr]%lookup_delete_Some.
    by apply Hk.
  - done.
  - unfold watchFunc. by destruct (handles w !! h).
  - unfold arrayWatcher. by destruct (handles w !! h).
  - intros k r. rewrite unsubscribe_entries. apply Hk.
  - intros k r Hr%garbageCollect_subseteq. by apply Hk.
Qed.

Lemma entries_ordinary_step w (o : Op Obj) :
  entries_ordinary (store w) → entries_ordinary (store (step isEqual w o).1).
Proof.
  intros Hk. destruct o as [items | name | L | h cb | h cb | h |]; simpl.
  - pose proof (add_store w items) as Hs.
    destruct (add isEqual w items) as [[w' h'] evs]. simpl in *.
    rewrite Hs. by apply add_items_ordinary.
  - intros k. simpl. intros [r [_ Hr]%lookup_delete_Some].
    apply Hk. by exists r.
  - done.
  - unfold watchFunc. by destruct (handles w !! h).
  - unfold arrayWatcher. by destruct (handles w !! h).
  - intros k. rewrite unsubscribe_entries. apply Hk.
  - intros k [r Hr%garbageCollect_subseteq]. apply Hk. by exists r.
Qed.

Lemma reachable_entries w :
  reachable isEqual w → keyed (store w) ∧ entries_ordinary (store w).
Proof.
  intros [ops <-].
  assert (∀ w0 : World Obj, keyed (store w0) ∧ entries_ordinary (store w0) →
            keyed (store (run isEqual w0 ops).1) ∧
            entries_ordinary (store (run isEqual w0 ops).1)) as Hrun.
  { induction ops as [|o ops IH]; intros w0 [Hk He]; [done |].
    rewrite run_cons. simpl. apply IH.
    split; [by apply keyed_step | by apply entries_ordinary_step]. }
  apply Hrun. split.
  - intros k r. simpl. by rewrite lookup_empty.
  - intros k [r Hr]. simpl in Hr. by rewrite lookup_empty in Hr.
Qed.

(** X13.  In every world reached from a new store, what [get(name)]
    returns is a resource stored under the name it reports, and then
    [Object.prototype] does not define the name, or, when nothing is stored
    under a name that [Object.prototype] defines, the inherited property of
    that name. *)
Theorem reachable_keyed w (k : string) (v : JsValue (Resource Obj)) :
  reachable isEqual w → get (store w) k = Some v →
  match v with
  | Own r => _d (store w) !! k = Some r ∧ getName r = k ∧ ordinary k
  | Proto p => _d (store w) !! k = None ∧ p = k ∧ inherited k = true
  end.
Proof.
  intros [Hk He]%reachable_entries. unfold get, prop_get.
  destruct (_d (store w) !! k) as [r |] eqn:Hr.
  - intros [= <-]. split; [done |]. split; [by apply Hk |].
    apply He. by exists r.
  - destruct (inherited k) eqn:Hinh; [| done]. by intros [= <-].
Qed.

(** X12.  [add] of a resource under whose name [get] returns [undefined]
    stores it and calls every registered closure once: the closures whose
    filter accepts the name call their callback once with the name and the
    resource, the others make no call. *)
Theorem add_new_notifies_once w r :
  reachable isEqual w →
  get (store w) (getName r) = None →
  let n := getName r in
  let w' := (add isEqual w [r]).1.1 in
  let evs := (add isEqual w [r]).2 in
  (add isEqual w [r]).1.2 = Some (length (handles w)) ∧
  get (store w') n = Some (Own r) ∧
  (∀ m, m ≠ n → get (store w') m = get (store w) m) ∧
  (∀ f, f ∈ _cbs (store w) →
        calls_of f.1 evs =
        if fires f.2 n then [the_call (store w') f n (Some r)] else []) ∧
  (∀ e, e ∈ evs → event_name e = n ∧ event_data e = Some r).
Proof.
  intros HI%reachable_Inv Hget n w' evs. subst n w' evs.
  pose proof (inv_addr_nodup w HI) as Hnd.
  rewrite add_one_stored by (by rewrite Hget). simpl.
  split; [done |].
  split; [unfold get; simpl; apply prop_get_own, lookup_insert_eq |].
  split.
  { intros m Hm. unfold get, prop_get. simpl. by rewrite lookup_insert_ne. }
  split.
  - intros f Hf. rewrite <- call_fires. by apply publish_calls_of.
  - intros e (_ & Hn & Hd)%publish_event. done.
Qed.

(** X14.  [del(name)] removes the entry and nothing else, and calls each
    registered closure once with [undefined]; an array watcher of the name
    receives the array without the deleted resource.  Afterwards [get]
    returns [undefined] for the name, unless [Object.prototype] defines it,
    and then [get] returns the inherited property.  Repeating the [del]
    leaves the store as it is and makes the same calls again. *)
Theorem del_removes_and_notifies w (n : string) :
  reachable isEqual w →
  let s' := (del (store w) n).1 in
  let evs := (del (store w) n).2 in
  _d s' !! n = None ∧
  get s' n = (if inherited n then Some (Proto n) else None) ∧
  (∀ m, m ≠ n → get s' m = get (store w) m) ∧
  _cbs s' = _cbs (store w) ∧ _w s' = _w (store w) ∧
  (∀ f, f ∈ _cbs (store w) →
        calls_of f.1 evs =
        if fires f.2 n then [the_call s' f n None] else []) ∧
  del s' n = (s', evs).
Proof.
  intros HI%reachable_Inv s' evs.
  pose proof (inv_addr_nodup w HI) as Hnd.
  split; [simpl; apply lookup_delete_eq |].
  split; [unfold get, prop_get; simpl; by rewrite lookup_delete_eq |].
  split.
  { intros m Hm. unfold get, prop_get. simpl. by rewrite lookup_delete_ne. }
  split; [done |]. split; [done |]. split.
  - intros f Hf. rewrite <- call_fires.
    by apply (publish_calls_of s' f n None).
  - assert ((del s' n).1 = s') as Hsame.
    { apply datastore_eq; [| done..]. simpl. apply delete_id, lookup_delete_eq. }
    rewrite (surjective_pairing (del s' n)). f_equal; [done |].
    change (del s' n).2 with (_publish (del s' n).1 n None).
    by rewrite Hsame.
Qed.

End Entries.

(** ** More on subscriptions *)

Section Subscriptions.

Context {Obj : Type} (isEqual : Obj → Obj → bool).

Implicit Types (s : DataStore Obj) (w : World Obj) (h : nat) (hd : WatchFunc)
  (f : nat * Closure) (n : string) (ops : list (Op Obj)).

(** The handle's own set of closures after the loop of [unsubscribe]. *)
Lemma unsubscribe_loop_rest (names : list string) (todo : list nat)
    (st : DataStore Obj * list nat) :
  (foldl (unsubscribe_cb names) st todo).2 = filter (fun g => g ∉ todo) st.2.
Proof.
  revert st. induction todo as [|fn todo IH]; intros st.
  - simpl. symmetry. apply filter_all. intros g _. apply not_elem_of_nil.
  - rewrite foldl_step, IH. simpl. rewrite list_filter_filter.
    apply list_filter_iff. intros g. rewrite not_elem_of_cons. tauto.
Qed.

Lemma unsubscribe_handle w h hd :
  handles w !! h = Some hd →
  handles (unsubscribe w h) =
  <[h := {| namesArr := namesArr hd; names := names hd; cbs := [] |}]>
    (handles w).
Proof.
  intros Hh. unfold unsubscribe. rewrite Hh. simpl.
  rewrite unsubscribe_loop_rest. simpl.
  by rewrite (filter_none _ (cbs hd)) by (by intros g Hg Hout).
Qed.

(** X15.  [unsubscribe] is idempotent: a second call on the same handle
    changes nothing, so no counter is decremented twice. *)
Theorem unsubscribe_idempotent w h :
  unsubscribe (unsubscribe w h) h = unsubscribe w h.
Proof.
  destruct (handles w !! h) as [hd |] eqn:Hh; last first.
  { assert (unsubscribe w h = w) as Hid by (unfold unsubscribe; by rewrite Hh).
    by rewrite !Hid. }
  pose proof (unsubscribe_handle w h hd Hh) as Hhs.
  assert (handles (unsubscribe w h) !! h
          = Some {| namesArr := namesArr hd; names := names hd; cbs := [] |})
    as Hh'.
  { rewrite Hhs. apply list_lookup_insert_eq, (lookup_lt_Some _ _ _ Hh). }
  unfold unsubscribe at 1. rewrite Hh'. simpl.
  rewrite Hhs, list_insert_insert_eq, <- Hhs.
  by destruct (unsubscribe w h) as [[d c wn] hs fr].
Qed.

Lemma reachable_step w (o : Op Obj) :
  reachable isEqual w → reachable isEqual (step isEqual w o).1.
Proof.
  intros Hr. pose proof (reachable_run isEqual w [o] Hr) as Hr'.
  by rewrite run_cons in Hr'.
Qed.

(** Exact counters are determined by the registered closures. *)
Lemma counts_ok_same_cbs s s' n :
  ordinary n → counts_ok s → counts_ok s' → _cbs s = _cbs s' →
  _w s !! n = _w s' !! n.
Proof.
  intros Hn Hok Hok' Hcbs. by rewrite (Hok n Hn), (Hok' n Hn), Hcbs.
Qed.

Lemma unsubscribe_undoes_registration w w1 h hd1 (c : Closure) :
  Inv w → Inv w1 →
  handles w1 !! h = Some hd1 → cbs hd1 = [fresh w] →
  Forall ordinary (names hd1) →
  _d (store w1) = _d (store w) →
  _cbs (store w1) = _cbs (store w) ++ [(fresh w, c)] →
  _w (store w1) = foldl incr (_w (store w)) (names hd1) →
  store (unsubscribe w1 h) = store w.
Proof.
  intros HI HI1 Hh1 Hcbs1 Hord Hd Hreg Hw1.
  destruct (unsubscribe_effect w1 h hd1 HI1 Hh1)
    as (Hok & Hd' & Hcbs' & _ & _ & _).
  assert (_cbs (store (unsubscribe w1 h)) = _cbs (store w)) as Hsame.
  { rewrite Hcbs', Hreg, Hcbs1, filter_app.
    rewrite filter_all, filter_none.
    - apply app_nil_r.
    - intros f ->%list_elem_of_singleton Hout. apply Hout. by left.
    - intros f Hf Heq%list_elem_of_singleton.
      pose proof (inv_addr_fresh w HI f Hf). lia. }
  apply datastore_eq; [by rewrite Hd' | done |].
  apply map_eq. intros n. destruct (decide (n ∈ names hd1)) as [Hin | Hout].
  - rewrite Forall_forall in Hord.
    apply counts_ok_same_cbs; [by apply Hord | done | apply (inv_counts w HI) |
                               done].
  - rewrite (unsubscribe_other_names w1 h hd1) by done.
    rewrite Hw1. by apply foldl_incr_other.
Qed.

(** X16.  Registering a callback through a handle that has none, for names
    that [Object.prototype] does not define, and then unsubscribing the
    handle restores the store: entries, registered closures and counters
    are what they were before the registration. *)
Theorem subscribe_unsubscribe_round_trip w h hd (cb : nat) :
  reachable isEqual w → handles w !! h = Some hd → cbs hd = [] →
  Forall ordinary (names hd) →
  store (unsubscribe (watchFunc w h cb) h) = store w ∧
  store (unsubscribe (arrayWatcher w h cb) h) = store w.
Proof.
  intros HI%reachable_Inv Hh Hnone Hord.
  assert (h < length (handles w)) as Hlt by apply (lookup_lt_Some _ _ _ Hh).
  split.
  - eapply (unsubscribe_undoes_registration w (watchFunc w h cb) h);
      [done | by apply Inv_watchFunc | ..].
    + unfold watchFunc. rewrite Hh. simpl. by apply list_lookup_insert_eq.
    + simpl. by rewrite Hnone.
    + done.
    + unfold watchFunc. by rewrite Hh.
    + unfold watchFunc. by rewrite Hh.
    + unfold watchFunc. by rewrite Hh.
  - eapply (unsubscribe_undoes_registration w (arrayWatcher w h cb) h);
      [done | by apply Inv_arrayWatcher | ..].
    + unfold arrayWatcher. rewrite Hh. simpl. by apply list_lookup_insert_eq.
    + simpl. by rewrite Hnone.
    + done.
    + unfold arrayWatcher. by rewrite Hh.
    + unfold arrayWatcher. by rewrite Hh.
    + unfold arrayWatcher. by rewrite Hh.
Qed.

(** X17.  The calls that manage subscriptions ([watch], registering a
    callback, [unsubscribe]) never call a callback and never change an
    entry. *)
Theorem subscription_ops_are_silent w ops :
  forallb subscription_op ops = true →
  (run isEqual w ops).2 = [] ∧
  _d (store (run isEqual w ops).1) = _d (store w).
Proof.
  revert w. induction ops as [|o ops IH]; intros w Hall; [done |].
  simpl in Hall. apply andb_true_iff in Hall as [Ho Hall].
  rewrite run_cons. simpl. destruct (IH (step isEqual w o).1 Hall) as [-> ->].
  destruct o as [items | name | L | h cb | h cb | h |]; try done; simpl.
  - unfold watchFunc. by destruct (handles w !! h).
  - unfold arrayWatcher. by destruct (handles w !! h).
  - split; [done |]. apply unsubscribe_entries.
Qed.

(** X18.  Empty argument lists.  [add()] without items changes nothing
    and calls nothing, and returns a handle without names.  A callback
    registered through a handle without names, as a plain or as an array
    watcher, touches no counter and is never called. *)
Theorem empty_arguments w (cb : nat) :
  let h := length (handles w) in
  let w0 := (watch w []).1 in
  add isEqual w [] = (w0, Some h, []) ∧
  store w0 = store w ∧
  _w (store (watchFunc w0 h cb)) = _w (store w) ∧
  _w (store (arrayWatcher w0 h cb)) = _w (store w) ∧
  _cbs (store (watchFunc w0 h cb)) = _cbs (store w) ++ [(fresh w, PlainCb [] cb)] ∧
  _cbs (store (arrayWatcher w0 h cb))
    = _cbs (store w) ++ [(fresh w, ArrayCb [] [] cb)] ∧
  (∀ s n (data : option (Resource Obj)),
     call s (fresh w, PlainCb [] cb) n data = [] ∧
     call s (fresh w, ArrayCb [] [] cb) n data = []).
Proof.
  intros h w0.
  assert (handles w0 !! h = Some {| namesArr := []; names := []; cbs := [] |})
    as Hh.
  { unfold w0, h, watch. simpl. by rewrite lookup_app_r, Nat.sub_diag. }
  split; [by destruct w |]. split; [done |].
  split; [unfold watchFunc; by rewrite Hh |].
  split; [unfold arrayWatcher; by rewrite Hh |].
  split; [unfold watchFunc; by rewrite Hh |].
  split; [unfold arrayWatcher; by rewrite Hh |].
  intros s n data. split; [| done].
  unfold call. simpl. by rewrite find_none.
Qed.

(** The closures that call their callback in a notification pass are the
    registered closures whose filter accepts the name, in the order of
    [_cbs]. *)
Lemma publish_callers s n (data : option (Resource Obj)) :
  event_fn <$> _publish s n data =
  (filter (fun f => fires f.2 n = true) (_cbs s)).*1.
Proof.
  unfold _publish. induction (_cbs s) as [|g fs IH]; [done |].
  simpl. rewrite fmap_app, IH, filter_cons, call_fires.
  destruct (decide (fires g.2 n = true)) as [-> | Hno].
  - simpl. f_equal. unfold the_call. by destruct g.2.
  - by destruct (fires g.2 n).
Qed.

Lemma filter_fst_sorted (P : nat * Closure → Prop) `{∀ x, Decision (P x)}
    (fs : list (nat * Closure)) :
  StronglySorted lt fs.*1 → StronglySorted lt (filter P fs).*1.
Proof.
  induction fs as [|g fs IH]; [done |].
  rewrite fmap_cons. intros [Hall Hs]%StronglySorted_cons.
  rewrite filter_cons. destruct (decide (P g)); [| by apply IH].
  rewrite fmap_cons. apply StronglySorted_cons. split; [| by apply IH].
  apply Forall_forall. intros x (g' & -> & [_ Hg']%list_elem_of_filter)%list_elem_of_fmap.
  rewrite Forall_forall in Hall. apply Hall. by apply list_elem_of_fmap_2.
Qed.

Lemma sorted_step w (o : Op Obj) :
  Inv w → StronglySorted lt (_cbs (store w)).*1 →
  StronglySorted lt (_cbs (store (step isEqual w o).1)).*1.
Proof.
  intros HI Hs.
  assert (∀ c, StronglySorted lt (_cbs (store w) ++ [(fresh w, c)]).*1) as Hreg.
  { intros c. rewrite fmap_app. apply StronglySorted_app.
    split; [| split; [done | repeat constructor]].
    intros x y (f & -> & Hf)%list_elem_of_fmap ->%list_elem_of_singleton.
    apply (inv_addr_fresh w HI f Hf). }
  destruct o as [items | name | L | h cb | h cb | h |];
    [rewrite step_add | simpl..]; try done.
  - simpl. by rewrite (proj1 (add_frame isEqual w items)).
  - unfold watchFunc. destruct (handles w !! h); [apply Hreg | done].
  - unfold arrayWatcher. destruct (handles w !! h); [apply Hreg | done].
  - destruct (handles w !! h) as [hd |] eqn:Hh;
      [| unfold unsubscribe; by rewrite Hh].
    destruct (unsubscribe_effect w h hd HI Hh) as (_ & _ & -> & _).
    by apply filter_fst_sorted.
Qed.

Lemma reachable_sorted w :
  reachable isEqual w → StronglySorted lt (_cbs (store w)).*1.
Proof.
  intros [ops <-].
  enough (∀ w0 : World Obj, Inv w0 → StronglySorted lt (_cbs (store w0)).*1 →
            StronglySorted lt (_cbs (store (run isEqual w0 ops).1)).*1) as Hrun.
  { apply Hrun; [apply Inv_init | constructor]. }
  induction ops as [|o ops IH]; intros w0 HI Hs; [done |].
  rewrite run_cons. simpl. apply IH; [by apply Inv_step | by apply sorted_step].
Qed.

(** X19.  Callbacks are notified in the order in which they were
    registered.  In every reachable world the registered closures are kept
    in increasing order of address, below the address the next registration
    receives, and a notification pass calls, in that order, exactly the
    closures whose filter accepts the changed name. *)
Theorem notification_order w n (data : option (Resource Obj)) :
  reachable isEqual w →
  StronglySorted lt (_cbs (store w)).*1 ∧
  (∀ f, f ∈ _cbs (store w) → f.1 < fresh w) ∧
  event_fn <$> _publish (store w) n data =
    (filter (fun f => fires f.2 n = true) (_cbs (store w))).*1 ∧
  StronglySorted lt (event_fn <$> _publish (store w) n data).
Proof.
  intros Hr. pose proof (reachable_sorted w Hr) as Hs.
  split; [done |].
  split; [apply (inv_addr_fresh w), (reachable_Inv isEqual), Hr |].
  split; [apply publish_callers |].
  rewrite publish_callers. by apply filter_fst_sorted.
Qed.

(** Where the calls of a step come from. *)
Lemma add_items_provenance (items : list (Resource Obj))
    (st : AddLoop Obj) (e : Event Obj) :
  e ∈ loop_events (foldl (add_item isEqual) st items) →
  e ∈ loop_events st ∨
  ∃ item, item ∈ items ∧ event_name e = getName item ∧
          event_data e = Some item.
Proof.
  revert st. induction items as [|item items IH]; intros st; [by left |].
  rewrite foldl_step. intros [He | (x & Hx & Hname & Hdata)]%IH.
  - destruct (loop_raised st) eqn:Hr;
      [rewrite (add_item_raised isEqual st item Hr) in He; by left |].
    destruct (add_item_cases isEqual st item Hr)
      as [(cur & _ & _ & Hst) | [(_ & Hst) | (_ & _ & Hst)]];
      rewrite Hst in He; simpl in He; try (by left).
    apply elem_of_app in He as [He | He]; [by left | right].
    apply publish_event in He as (_ & Hname & Hdata).
    exists item. split; [by left | done].
  - right. exists x. split; [by right | done].
Qed.

Lemma step_provenance w (o : Op Obj) (e : Event Obj) :
  e ∈ (step isEqual w o).2 →
  match event_data e with
  | Some r => getName r = event_name e ∧ ∃ items, o = OAdd items ∧ r ∈ items
  | None => o = ODel (event_name e)
  end.
Proof.
  destruct o as [items | name | L | h cb | h cb | h |];
    [rewrite step_add | simpl..]; try (by intros ?%elem_of_nil).
  - simpl. rewrite add_events. unfold add_loop.
    intros [?%elem_of_nil | (item & Hitem & Hname & ->)]%add_items_provenance;
      [done |].
    split; [done |]. by exists items.
  - intros (_ & <- & ->)%publish_event. done.
Qed.

(** X20.  The store invents no notification.  In every run, a call that
    carries a resource carries one that some [add] of the run was given,
    together with that resource's own name, and a call that carries
    [undefined] names a name that some [del] of the run was given. *)
Theorem notifications_have_a_cause w ops :
  Forall (fun e =>
            match event_data e with
            | Some r => getName r = event_name e ∧
                        ∃ items, OAdd items ∈ ops ∧ r ∈ items
            | None => ODel (event_name e) ∈ ops
            end) (run isEqual w ops).2.
Proof.
  revert w. induction ops as [|o ops IH]; intros w; [constructor |].
  rewrite run_cons. simpl. apply Forall_app. split.
  - apply Forall_forall. intros e He%step_provenance.
    destruct (event_data e) as [r |].
    + destruct He as (Hname & items & -> & Hr). split; [done |].
      exists items. split; [by left | done].
    + rewrite He. by left.
  - eapply Forall_impl; [apply IH |]. intros e He. simpl in He.
    destruct (event_data e) as [r |].
    + destruct He as (Hname & items & Hin & Hr). split; [done |].
      exists items. split; [by right | done].
    + by right.
Qed.

Lemma refcount_pos (fs : list (nat * Closure)) (fn : nat) (c : Closure) n :
  (fn, c) ∈ fs → n ∈ closure_names c → (0 < refcount fs n)%Z.
Proof.
  intros Hin Hn. unfold refcount.
  assert ((fn, c) ∈ filter (fun f => n ∈ closure_names f.2) fs) as Hf
    by (by apply list_elem_of_filter).
  destruct (filter (fun f => n ∈ closure_names f.2) fs);
    [by apply elem_of_nil in Hf | simpl; lia].
Qed.

Lemma unsubscribe_other_handle w h1 h2 hd2 :
  h1 ≠ h2 → handles w !! h2 = Some hd2 →
  handles (unsubscribe w h1) !! h2 = Some hd2.
Proof.
  intros Hne Hh2. destruct (handles w !! h1) as [hd1 |] eqn:Hh1.
  - rewrite (unsubscribe_handle w h1 hd1 Hh1). by rewrite list_lookup_insert_ne.
  - unfold unsubscribe. by rewrite Hh1.
Qed.

(** X3.  Reference-counted collection.  In a reachable world, an entry
    with a rooted key that is covered by a handle with at least one
    registered callback, through a name that [Object.prototype] does not
    define, survives [garbageCollect] after any other handle has
    unsubscribed. *)
Theorem gc_protected_by_other_handle w (h1 h2 : nat) hd2 (k : string) :
  reachable isEqual w → rooted k = true →
  h1 ≠ h2 → handles w !! h2 = Some hd2 → cbs hd2 ≠ [] →
  (∃ p, ancestor_prefix p k ∧ p ∈ names hd2 ∧ ordinary p) →
  _d (garbageCollect (store (unsubscribe w h1))) !! k = _d (store w) !! k ∧
  get (garbageCollect (store (unsubscribe w h1))) k = get (store w) k.
Proof.
  intros Hr Hk Hne Hh2 Hsome (p & Hp & Hin & Hord).
  pose proof (reachable_step w (OUnsubscribe h1) Hr) as Hr1. simpl in Hr1.
  pose proof (reachable_Inv isEqual _ Hr1) as HI1.
  pose proof (unsubscribe_other_handle w h1 h2 hd2 Hne Hh2) as Hh2'.
  destruct (cbs hd2) as [|fn rest] eqn:Hcbs; [done |].
  destruct (inv_handle_cbs _ HI1 h2 hd2 fn Hh2') as (c & Hc & Hcn);
    [rewrite Hcbs; by left |].
  assert (0 < refcount (_cbs (store (unsubscribe w h1))) p)%Z as Hpos.
  { apply (refcount_pos _ fn c); [done | by rewrite Hcn]. }
  assert (_d (garbageCollect (store (unsubscribe w h1))) !! k
          = _d (store w) !! k) as Hsame.
  { rewrite garbageCollect_lookup, unsubscribe_entries.
    rewrite (proj2 (gc_own_test_rooted _ k Hk)); [by rewrite orb_true_r |].
    exists p. split; [done |].
    rewrite (inv_counts _ HI1 p Hord). rewrite decide_False; [done | lia]. }
  split; [done |]. unfold get, prop_get. by rewrite Hsame.
Qed.

(** X4.  When the last handle that holds callbacks unsubscribes, and
    neither its names nor the counters present are names of
    [Object.prototype], no closure and no counter is left, and
    [garbageCollect] then removes every entry. *)
Theorem gc_after_last_unsubscribe w h hd :
  reachable isEqual w → handles w !! h = Some hd →
  (∀ f, f ∈ _cbs (store w) → f.1 ∈ cbs hd) →
  Forall ordinary (names hd) →
  (∀ n, is_Some (_w (store w) !! n) → ordinary n) →
  _cbs (store (unsubscribe w h)) = [] ∧
  _w (store (unsubscribe w h)) = ∅ ∧
  garbageCollect_raises (store (unsubscribe w h)) = false ∧
  _d (garbageCollect (store (unsubscribe w h))) = ∅.
Proof.
  intros Hr Hh Hall Hord Hw. pose proof (reachable_Inv isEqual w Hr) as HI.
  destruct (unsubscribe_effect w h hd HI Hh) as (Hok & _ & Hcbs & _).
  assert (_cbs (store (unsubscribe w h)) = []) as Hnone.
  { rewrite Hcbs. apply filter_none. intros f Hf Hout. by apply Hout, Hall. }
  assert (_w (store (unsubscribe w h)) = ∅) as Hempty.
  { apply map_empty. intros n. destruct (inherited n) eqn:Hinh.
    - rewrite (unsubscribe_other_names w h hd n Hh).
      + apply eq_None_not_Some. intros Hsome%Hw.
        unfold ordinary in Hsome. by rewrite Hsome in Hinh.
      + rewrite Forall_forall in Hord. intros Hin%Hord.
        unfold ordinary in Hin. by rewrite Hin in Hinh.
    - rewrite (Hok n Hinh), Hnone. done. }
  assert (gc_blocked (store (unsubscribe w h)) = false) as Hfree.
  { apply gc_blocked_false. rewrite Hempty, unsubscribe_entries.
    split; [| apply lookup_empty].
    destruct (reachable_entries isEqual w Hr) as [_ He].
    apply eq_None_not_Some. by intros Hsome%He. }
  split; [done |]. split; [done |].
  split; [by rewrite garbageCollect_raises_iff, Hfree |].
  apply map_empty. intros k.
  rewrite garbageCollect_lookup, Hfree, gc_own_test_unwatched; [done |].
  intros m _. rewrite Hempty. apply lookup_empty.
Qed.

Lemma owned_step w (o : Op Obj) :
  Inv w → owned w → owned (step isEqual w o).1.
Proof.
  intros HI Hown.
  assert (∀ (c : Closure) h hd,
            handles w !! h = Some hd →
            owned {| store := {| _d := _d (store w);
                                 _cbs := _cbs (store w) ++ [(fresh w, c)];
                                 _w := foldl incr (_w (store w)) (names hd) |};
                     handles := <[h := {| namesArr := namesArr hd;
                                          names := names hd;
                                          cbs := cbs hd ++ [fresh w] |}]>
                                  (handles w);
                     fresh := S (fresh w) |}) as Hreg.
  { intros c h hd Hh f. simpl.
    assert (h < length (handles w)) as Hlt by apply (lookup_lt_Some _ _ _ Hh).
    intros [Hf | ->%list_elem_of_singleton]%elem_of_app.
    - destruct (Hown f Hf) as (h' & hd' & Hh' & Hin).
      destruct (decide (h' = h)) as [-> | Hne].
      + rewrite Hh in Hh'. injection Hh' as <-.
        eexists h, _. split; [by apply list_lookup_insert_eq |].
        simpl. apply elem_of_app. by left.
      + exists h', hd'. split; [by rewrite list_lookup_insert_ne | done].
    - eexists h, _. split; [by apply list_lookup_insert_eq |].
      simpl. apply elem_of_app. right. by left. }
  destruct o as [items | name | L | h cb | h cb | h |];
    [rewrite step_add | simpl..]; try done.
  - simpl. intros f Hf. rewrite (proj1 (add_frame isEqual w items)) in Hf.
    destruct (Hown f Hf) as (h' & hd' & Hh' & Hin).
    exists h', hd'. split; [| done]. by apply add_handles.
  - intros f Hf. destruct (Hown f Hf) as (h' & hd' & Hh' & Hin).
    exists h', hd'. split; [| done]. simpl. by apply lookup_app_l_Some.
  - unfold watchFunc. destruct (handles w !! h) as [hd |] eqn:Hh; [| done].
    by apply Hreg.
  - unfold arrayWatcher. destruct (handles w !! h) as [hd |] eqn:Hh; [| done].
    by apply Hreg.
  - destruct (handles w !! h) as [hd |] eqn:Hh;
      [| unfold unsubscribe; by rewrite Hh].
    destruct (unsubscribe_effect w h hd HI Hh) as (_ & _ & Hcbs & _).
    intros f. rewrite Hcbs. intros [Hout Hf]%list_elem_of_filter.
    destruct (Hown f Hf) as (h' & hd' & Hh' & Hin).
    exists h', hd'. split; [| done].
    apply unsubscribe_other_handle; [| done]. intros ->.
    rewrite Hh in Hh'. injection Hh' as <-. done.
Qed.

Lemma reachable_owned w : reachable isEqual w → owned w.
Proof.
  intros [ops <-].
  enough (∀ w0 : World Obj, Inv w0 → owned w0 →
            owned (run isEqual w0 ops).1) as Hrun.
  { apply Hrun; [apply Inv_init |]. by intros f ?%elem_of_nil. }
  induction ops as [|o ops IH]; intros w0 HI Hown; [done |].
  rewrite run_cons. simpl. apply IH; [by apply Inv_step | by apply owned_step].
Qed.

Lemma addr_determines_closure (fs : list (nat * Closure)) (a : nat)
    (c c' : Closure) :
  NoDup fs.*1 → (a, c) ∈ fs → (a, c') ∈ fs → c = c'.
Proof.
  induction fs as [|g fs IH]; intros Hnd Hc Hc'; [by apply elem_of_nil in Hc |].
  rewrite fmap_cons in Hnd. apply NoDup_cons in Hnd as [Hg Hnd].
  apply elem_of_cons in Hc as [<- | Hc];
    apply elem_of_cons in Hc' as [Heq | Hc'].
  - by injection Heq.
  - destruct Hg. by apply (list_elem_of_fmap_2 fst) in Hc'.
  - subst g. destruct Hg. by apply (list_elem_of_fmap_2 fst) in Hc.
  - by apply IH.
Qed.

(** X21.  No subscription leaks.  In every reachable world each
    registered closure belongs to exactly one handle, it watches that
    handle's set of names, and so it can be revoked through that handle and
    through no other. *)
Theorem every_closure_has_one_handle w (f : nat * Closure) :
  reachable isEqual w → f ∈ _cbs (store w) →
  ∃ h hd, handles w !! h = Some hd ∧ f.1 ∈ cbs hd ∧
          closure_names f.2 = names hd ∧
          (f ∉ _cbs (store (unsubscribe w h))) ∧
          ∀ h' hd', handles w !! h' = Some hd' → f.1 ∈ cbs hd' → h' = h.
Proof.
  intros Hr Hf. pose proof (reachable_Inv isEqual w Hr) as HI.
  destruct (reachable_owned w Hr f Hf) as (h & hd & Hh & Hin).
  exists h, hd. split; [done |]. split; [done |]. split; [| split].
  - destruct (inv_handle_cbs w HI h hd f.1 Hh Hin) as (c & Hc & <-).
    f_equal. destruct f as [a c']. simpl in *.
    by apply (addr_determines_closure _ a c' c (inv_addr_nodup w HI)).
  - destruct (unsubscribe_effect w h hd HI Hh) as (_ & _ & -> & _).
    by intros [Hout _]%list_elem_of_filter.
  - intros h' hd' Hh' Hin'. destruct (decide (h' = h)) as [| Hne]; [done |].
    by destruct (inv_handle_disj w HI h' h hd' hd f.1 Hne Hh' Hh Hin').
Qed.

(** X22.  [garbageCollect] is idempotent and only removes: collecting
    twice is collecting once, a surviving entry is the entry that was
    stored, and the registered closures and the counters are untouched. *)
Theorem garbageCollect_idempotent s :
  garbageCollect (garbageCollect s) = garbageCollect s ∧
  (_d (garbageCollect s) ⊆ _d s) ∧
  _cbs (garbageCollect s) = _cbs s ∧ _w (garbageCollect s) = _w s.
Proof.
  split; [| split; [| done]].
  - destruct (gc_blocked s) eqn:Hb.
    + assert (garbageCollect s = s) as Hsame; [| by rewrite !Hsame].
      unfold garbageCollect. by rewrite garbageCollect_call_blocked.
    + assert (gc_blocked (garbageCollect s) = false) as Hb'.
      { apply gc_blocked_false in Hb as [Hd Hw]. apply gc_blocked_false.
        split; [| done]. rewrite garbageCollect_lookup, Hd.
        by destruct (_ || _). }
      apply datastore_eq; [| done..]. apply map_eq. intros k.
      rewrite !garbageCollect_lookup, Hb', Hb. simpl.
      by destruct (gc_own_test (_w s) k).
  - apply map_subseteq_spec. intros k r. apply garbageCollect_subseteq.
Qed.




(** X27.  [garbageCollect] raises a [TypeError] in a reachable world
    exactly when [_w] has an own property [hasOwnProperty] and there is an
    entry to visit: the test calls [watchedNames.hasOwnProperty], which is
    then a counter and no function.  The call removes nothing.  Registering
    a callback through a handle that watches ["hasOwnProperty"] creates
    that own property. *)
Theorem garbageCollect_raises_on_watched_hasOwnProperty w :
  reachable isEqual w →
  (garbageCollect_raises (store w) = true ↔
   is_Some (_w (store w) !! "hasOwnProperty") ∧ _d (store w) ≠ ∅) ∧
  (garbageCollect_raises (store w) = true →
   garbageCollect (store w) = store w ∧
   (step isEqual w OGarbageCollect).1 = w) ∧
  (∀ h hd (cb : nat),
     handles w !! h = Some hd → "hasOwnProperty" ∈ names hd →
     is_Some (_w (store (watchFunc w h cb)) !! "hasOwnProperty") ∧
     is_Some (_w (store (arrayWatcher w h cb)) !! "hasOwnProperty")).
Proof.
  intros Hr. pose proof (reachable_Inv isEqual w Hr) as HI.
  destruct (reachable_entries isEqual w Hr) as [_ He].
  assert (_d (store w) !! "hasOwnProperty" = None) as Hd.
  { apply eq_None_not_Some. by intros Hsome%He. }
  assert (gc_blocked (store w)
          = bool_decide (is_Some (_w (store w) !! "hasOwnProperty"))) as Hb.
  { unfold gc_blocked. rewrite Hd.
    by rewrite bool_decide_eq_false_2 by (by intros [? ?]). }
  split; [| split].
  - rewrite garbageCollect_raises_iff, Hb, andb_true_iff.
    by rewrite !bool_decide_eq_true.
  - rewrite garbageCollect_raises_iff. intros [Hblocked _]%andb_true_iff.
    assert (garbageCollect (store w) = store w) as Hsame.
    { unfold garbageCollect. by rewrite garbageCollect_call_blocked. }
    split; [done |]. simpl. rewrite Hsame. by destruct w.
  - intros h hd cb Hh Hin.
    assert (is_Some (foldl incr (_w (store w)) (names hd) !! "hasOwnProperty"))
      as Hown.
    { rewrite foldl_incr_once, decide_True by
        (done || (rewrite (inv_handle_names w HI h hd Hh); apply set_of_NoDup)).
      rewrite incr_self. simpl. by eexists. }
    split.
    + unfold watchFunc. by rewrite Hh.
    + unfold arrayWatcher. by rewrite Hh.
Qed.

End Subscriptions.

(** ** More on names *)

Lemma split_length (N : string) : length (Js.split N) = S (separators N).
Proof.
  induction N as [|c N IH]; [done |].
  simpl. destruct (Ascii.eqb c Js.slash); simpl; [by rewrite IH |].
  pose proof (split_not_nil N) as Hne.
  destruct (Js.split N) as [|seg segs]; [done |]. simpl in *. lia.
Qed.

Lemma watchNames_map_length (prev : string) (parts : list string) :
  length (watchNames_map prev parts) = length parts.
Proof.
  revert prev. induction parts as [|part rest IH]; intros prev; [done |].
  simpl. by rewrite IH.
Qed.

(** X8.  [watchNames] returns one name for each segment of its argument:
    one more than the number of separators, and so never an empty array. *)
Theorem watchNames_length (N : string) :
  length (watchNames N) = S (separators N) ∧ watchNames N ≠ [].
Proof.
  assert (length (watchNames N) = S (separators N)) as Hlen.
  { unfold watchNames. by rewrite watchNames_map_length, split_length. }
  split; [done |]. intros Hnil. by rewrite Hnil in Hlen.
Qed.

Lemma watchNames_leading_separator (N : string) :
  watchNames ("/" +:+ N) = "" :: watchNames N.
Proof. reflexivity. Qed.

(** X7.  Names that are not rooted.  A leading separator is dropped:
    [watchNames] of ["/" + N] is the empty name followed by [watchNames] of
    [N].  Hence a plain watcher is never called for a change of the empty
    name; for a change of ["/" + N] it is called as for a change of [N],
    unless it watches the empty name, and then it is not called at all.
    [garbageCollect] treats keys in the same way: its test raises when
    [_w] has an own property [hasOwnProperty] and otherwise fails on the
    empty key, and on ["/" + N] it fails when the empty name has a counter
    and otherwise does what it does on [N]; so the entry under the empty
    key never survives a collection that returns. *)
Theorem unrooted_names (S : list string) (cb : nat)
    (wn : gmap string Counter) (N : string) :
  watchNames ("/" +:+ N) = "" :: watchNames N ∧
  fires (PlainCb S cb) "" = false ∧
  fires (PlainCb S cb) ("/" +:+ N)
    = negb (Js.has S "") && fires (PlainCb S cb) N ∧
  gc_keeps wn ""
    = (if bool_decide (is_Some (wn !! "hasOwnProperty")) then None
       else Some false) ∧
  gc_keeps wn ("/" +:+ N)
    = (if bool_decide (is_Some (wn !! ""))
       then (fun _ => false) <$> gc_keeps wn N
       else gc_keeps wn N) ∧
  (∀ (Obj : Type) (s : DataStore Obj),
     garbageCollect_raises s = false → _d (garbageCollect s) !! "" = None).
Proof.
  split; [reflexivity |]. split; [| split; [| split; [| split]]].
  - unfold fires. change (watchNames "") with [""]. simpl.
    by destruct (Js.has S "").
  - unfold fires. rewrite watchNames_leading_separator. simpl.
    by destruct (Js.has S "").
  - unfold gc_keeps. change (watchNames "") with [""]. simpl.
    unfold hasOwnProperty.
    destruct (wn !! "hasOwnProperty") as [c |] eqn:Hc.
    + reflexivity.
    + by destruct (bool_decide (is_Some (wn !! ""))).
  - destruct (wn !! "hasOwnProperty") as [c |] eqn:Hc.
    + rewrite !gc_keeps_raises by (by exists c).
      by destruct (bool_decide _).
    + unfold gc_keeps. rewrite watchNames_leading_separator. simpl.
      unfold hasOwnProperty at 1. rewrite Hc.
      destruct (bool_decide (is_Some (wn !! ""))); [| done].
      fold (gc_keeps wn N). by rewrite (gc_keeps_free wn N Hc).
  - intros Obj s Hnr. rewrite garbageCollect_lookup.
    rewrite garbageCollect_raises_iff in Hnr.
    destruct (gc_blocked s); simpl in *.
    + apply bool_decide_eq_false in Hnr.
      destruct (decide (_d s = ∅)) as [-> | ?]; [apply lookup_empty | done].
    + assert (gc_own_test (_w s) "" = false) as ->; [| done].
      unfold gc_own_test. change (watchNames "") with [""]. simpl.
      by destruct (bool_decide (is_Some (_w s !! ""))).
Qed.

(** ** Instances *)

(** A watcher of ["apps"] sees a change of ["apps/1"]. *)
Lemma coarse_watch_sees_descendant_witness :
  rooted "apps" = true ∧
  call (store world_watching_n) (0, PlainCb ["apps"] 7)
       ("apps" +:+ "/" +:+ "1") None
  = [Call 0 7 ("apps" +:+ "/" +:+ "1") None].
Proof.
  split; [reflexivity |].
  apply (coarse_watch_sees_descendant (Obj:=Z) "apps" "1" 0 7). reflexivity.
Defined.

(** A watcher of ["apps/1"] does not see a change of ["apps"]. *)
Lemma fine_watch_misses_ancestor_witness :
  rooted "apps" = true ∧
  call (store world_watching_n) (0, PlainCb ["apps" +:+ "/" +:+ "1"] 7)
       "apps" None
  = [].
Proof.
  split; [reflexivity |].
  apply (fine_watch_misses_ancestor (Obj:=Z) "apps" "1" 0 7). reflexivity.
Defined.

(** Two resources with distinct names are added twice to a new store. *)
Lemma add_again_is_silent_witness :
  (∀ o, Z.eqb o o = true) ∧
  NoDup (getName <$> [res "a" 1; res "b" 2]) ∧
  (add Z.eqb (add Z.eqb init [res "a" 1; res "b" 2]).1.1
       [res "a" 1; res "b" 2]).2 = [].
Proof.
  assert (NoDup (getName <$> [res "a" 1; res "b" 2])) as Hnd.
  { apply NoDup_cons. split; [| apply NoDup_singleton].
    by intros ?%list_elem_of_singleton. }
  split; [exact Z.eqb_refl |]. split; [exact Hnd |].
  apply (add_again_is_silent Z.eqb init [res "a" 1; res "b" 2]
           Z.eqb_refl Hnd).
Defined.

(** The entry of [world_two_handles]. *)
Lemma reachable_keyed_witness :
  reachable Z.eqb world_two_handles ∧
  get (store world_two_handles) "a/c" = Some (Own (res "a/c" 3)) ∧
  getName (res "a/c" 3) = "a/c" ∧ ordinary "a/c".
Proof.
  assert (reachable Z.eqb world_two_handles) as Hr by (by eexists).
  split; [exact Hr |]. split; [reflexivity |].
  apply (reachable_keyed Z.eqb world_two_handles "a/c" (Own (res "a/c" 3)) Hr).
  reflexivity.
Defined.

(** A first resource is added under ["n"] while ["n"] is watched. *)
Lemma add_new_notifies_once_witness :
  reachable Z.eqb world_watching_n ∧
  get (store world_watching_n) "n" = None ∧
  (add Z.eqb world_watching_n [res "n" 1]).1.2 = Some 1 ∧
  get (store (add Z.eqb world_watching_n [res "n" 1]).1.1) "n"
    = Some (Own (res "n" 1)).
Proof.
  assert (reachable Z.eqb world_watching_n) as Hr by (by eexists).
  split; [exact Hr |]. split; [reflexivity |].
  destruct (add_new_notifies_once Z.eqb world_watching_n (res "n" 1) Hr eq_refl)
    as (Hh & Hget & _).
  split; [exact Hh | exact Hget].
Defined.

(** The entry of [world_two_handles] is deleted. *)
Lemma del_removes_and_notifies_witness :
  reachable Z.eqb world_two_handles ∧
  _d (del (store world_two_handles) "a/c").1 !! "a/c" = None.
Proof.
  assert (reachable Z.eqb world_two_handles) as Hr by (by eexists).
  split; [exact Hr |].
  apply (del_removes_and_notifies Z.eqb world_two_handles "a/c" Hr).
Defined.

(** A callback is registered through the unused handle of
    [world_two_handles], which is then unsubscribed. *)
Lemma subscribe_unsubscribe_round_trip_witness :
  reachable Z.eqb world_two_handles ∧
  handles world_two_handles !! 2 = Some handle_a_c ∧
  cbs handle_a_c = [] ∧
  Forall ordinary (names handle_a_c) ∧
  store (unsubscribe (watchFunc world_two_handles 2 11) 2)
    = store world_two_handles.
Proof.
  assert (reachable Z.eqb world_two_handles) as Hr by (by eexists).
  assert (Forall ordinary (names handle_a_c)) as Hord by (repeat constructor).
  split; [exact Hr |]. split; [reflexivity |]. split; [reflexivity |].
  split; [exact Hord |].
  apply (subscribe_unsubscribe_round_trip Z.eqb world_two_handles 2
           handle_a_c 11 Hr eq_refl eq_refl Hord).
Defined.

(** A watch, a registration and an unsubscribe on [world_two_handles]. *)
Lemma subscription_ops_are_silent_witness :
  forallb subscription_op
    [OWatch (Obj:=Z) ["z"]; OWatchFunc 3 5; OUnsubscribe 1] = true ∧
  (run Z.eqb world_two_handles
     [OWatch ["z"]; OWatchFunc 3 5; OUnsubscribe 1]).2 = [].
Proof.
  split; [reflexivity |].
  apply (subscription_ops_are_silent Z.eqb world_two_handles
           [OWatch ["z"]; OWatchFunc 3 5; OUnsubscribe 1]).
  reflexivity.
Defined.

(** The three closures of [world_two_handles] are in order of address. *)
Lemma notification_order_witness :
  reachable Z.eqb world_two_handles ∧
  StronglySorted lt (_cbs (store world_two_handles)).*1.
Proof.
  assert (reachable Z.eqb world_two_handles) as Hr by (by eexists).
  split; [exact Hr |].
  apply (notification_order Z.eqb world_two_handles "a" None Hr).
Defined.

(** The entry ["a/c"] is covered by the handle for ["a"; "b"] when the
    handle for ["a"] unsubscribes. *)
Lemma gc_protected_by_other_handle_witness :
  reachable Z.eqb world_two_handles ∧ rooted "a/c" = true ∧
  handles world_two_handles !! 1 = Some handle_a_b ∧
  cbs handle_a_b ≠ [] ∧
  (∃ p, ancestor_prefix p "a/c" ∧ p ∈ names handle_a_b ∧ ordinary p) ∧
  get (garbageCollect (store (unsubscribe world_two_handles 0))) "a/c"
    = get (store world_two_handles) "a/c".
Proof.
  assert (reachable Z.eqb world_two_handles) as Hr by (by eexists).
  assert (∃ p, ancestor_prefix p "a/c" ∧ p ∈ names handle_a_b ∧ ordinary p)
    as Hp.
  { exists "a". split; [right; by exists "c" |]. split; [by left | reflexivity]. }
  split; [exact Hr |]. split; [reflexivity |]. split; [reflexivity |].
  split; [done |]. split; [exact Hp |].
  apply (gc_protected_by_other_handle Z.eqb world_two_handles 0 1
           handle_a_b "a/c" Hr); [reflexivity | done | reflexivity | done |].
  exact Hp.
Defined.

(** The only handle of [world_watching_n] unsubscribes. *)
Lemma gc_after_last_unsubscribe_witness :
  reachable Z.eqb world_watching_n ∧
  handles world_watching_n !! 0 = Some handle_n ∧
  (∀ f, f ∈ _cbs (store world_watching_n) → f.1 ∈ cbs handle_n) ∧
  Forall ordinary (names handle_n) ∧
  (∀ n, is_Some (_w (store world_watching_n) !! n) → ordinary n) ∧
  _cbs (store (unsubscribe world_watching_n 0)) = [].
Proof.
  assert (reachable Z.eqb world_watching_n) as Hr by (by eexists).
  assert (∀ f, f ∈ _cbs (store world_watching_n) → f.1 ∈ cbs handle_n)
    as Hall.
  { intros f Hf. change (f ∈ [(0, PlainCb ["n"] 7)]) in Hf.
    apply list_elem_of_singleton in Hf as ->. by left. }
  assert (Forall ordinary (names handle_n)) as Hord by (repeat constructor).
  assert (∀ n, is_Some (_w (store world_watching_n) !! n) → ordinary n) as Hw.
  { intros n [c Hc].
    change (_w (store world_watching_n)) with (incr ∅ "n") in Hc.
    destruct (decide (n = "n")) as [-> | Hne]; [reflexivity |].
    rewrite incr_other, lookup_empty in Hc by done. discriminate Hc. }
  split; [exact Hr |]. split; [reflexivity |]. split; [exact Hall |].
  split; [exact Hord |]. split; [exact Hw |].
  apply (gc_after_last_unsubscribe Z.eqb world_watching_n 0 handle_n Hr
           eq_refl Hall Hord Hw).
Defined.

(** The closure of [world_watching_n] belongs to its handle. *)
Lemma every_closure_has_one_handle_witness :
  reachable Z.eqb world_watching_n ∧
  (0, PlainCb ["n"] 7) ∈ _cbs (store world_watching_n) ∧
  ∃ h hd, handles world_watching_n !! h = Some hd ∧ 0 ∈ cbs hd.
Proof.
  assert (reachable Z.eqb world_watching_n) as Hr by (by eexists).
  assert ((0, PlainCb ["n"] 7) ∈ _cbs (store world_watching_n)) as Hf
    by (by left).
  split; [exact Hr |]. split; [exact Hf |].
  destruct (every_closure_has_one_handle Z.eqb world_watching_n
              (0, PlainCb ["n"] 7) Hr Hf) as (h & hd & Hh & Hin & _).
  by exists h, hd.
Defined.

(** [garbageCollect] on a store that watches ["hasOwnProperty"]. *)
Lemma garbageCollect_raises_on_watched_hasOwnProperty_witness :
  reachable Z.eqb world_hasOwnProperty ∧
  garbageCollect_raises (store world_hasOwnProperty) = true ∧
  garbageCollect (store world_hasOwnProperty) = store world_hasOwnProperty.
Proof.
  assert (reachable Z.eqb world_hasOwnProperty) as Hr by (by eexists).
  split; [exact Hr |]. split; [reflexivity |].
  destruct (garbageCollect_raises_on_watched_hasOwnProperty Z.eqb
              world_hasOwnProperty Hr) as (_ & Hsame & _).
  apply Hsame. reflexivity.
Defined.
